(** * Vortex: extension manager and notification actions

    A shallow embedding of two modules of the application:

    - [src/extensions/extension_manager/index.ts]: the version diff of
      [checkForUpdates] and the promise chains of [checkForUpdates] and
      [updateAvailableExtensions];
    - [src/actions/notifications.ts]: the per-process registries of
      notification callbacks and timers, the IPC bridge of
      [fireNotificationAction], and the dialog callbacks of [showDialog]
      and [closeDialog].

    JavaScript objects used as dictionaries are finite maps, arrays are
    lists, [undefined] is [None], exceptions are an explicit outcome. *)

From Stdlib Require Import ZArith List Lia.
From stdpp Require Import base numbers option list strings gmap.

Local Open Scope string_scope.
Local Open Scope list_scope.

(** JavaScript exceptions that the modelled code can raise or meet. *)
Inductive JsError : Type :=
| TypeError                      (* member access or call on undefined/null *)
| UserError (tag : string).      (* anything thrown or rejected by foreign code *)

(** The properties every plain object [{}] inherits from [Object.prototype]:
    reading one of these names from an object without an own property of
    that name gives the inherited value, not [undefined]. *)
Definition inheritedName (key : string) : bool :=
  existsb (String.eqb key)
    [ "constructor"; "hasOwnProperty"; "isPrototypeOf"; "propertyIsEnumerable";
      "toLocaleString"; "toString"; "valueOf"; "__proto__";
      "__defineGetter__"; "__defineSetter__";
      "__lookupGetter__"; "__lookupSetter__" ].

(** ** The extension manager *)

Module ExtensionManager.

(** [IExtension] and [IAvailableExtension] are declared in [./types]; only
    the fields read by [index.ts] are kept.  [modId] is optional. *)
Record IExtension : Type := {
  ext_name : string;
  ext_modId : option Z;
  ext_version : string;
}.

Record IAvailableExtension : Type := {
  av_name : string;
  av_modId : option Z;
  av_version : string;
}.

(** [state.session.extensions].  [installed] is an object keyed by extension
    id; it is kept as an association list in property order, which is the
    order [Object.values] enumerates. *)
Record SessionExtensions : Type := {
  available : list IAvailableExtension;
  installed : list (string * IExtension);
  updateTime : option Z;
}.

Definition Object_values {A} (o : list (string * A)) : list A := map snd o.

(** [available.find(iter => iter.modId === ext.modId)] *)
Definition findAvailable (avail : list IAvailableExtension) (modId : option Z)
  : option IAvailableExtension :=
  find (fun iter => bool_decide (av_modId iter = modId)) avail.

(** The reducer callback of [checkForUpdates] (lines 29-46). *)
Definition updateStep (avail : list IAvailableExtension)
    (prev : list IAvailableExtension) (ext : IExtension)
  : list IAvailableExtension :=
  match ext_modId ext with
  | None => prev
  | Some _ =>
    match findAvailable avail (ext_modId ext) with
    | None => prev
    | Some current =>
      if String.eqb (av_version current) (ext_version ext) then prev
      else prev ++ [current]
    end
  end.

Definition updateable (s : SessionExtensions) : list IAvailableExtension :=
  fold_left (updateStep (available s)) (Object_values (installed s)) [].

(** What one installed extension adds to the list. *)
Definition contribution (avail : list IAvailableExtension) (ext : IExtension)
  : list IAvailableExtension :=
  updateStep avail [] ext.

(** The record [find] picks for a mod id: the first one carrying it. *)
Definition firstWithModId (avail : list IAvailableExtension) (m : Z)
    (r : IAvailableExtension) : Prop :=
  exists i, avail !! i = Some r /\ av_modId r = Some m /\
            forall j r', j < i -> avail !! j = Some r' -> av_modId r' <> Some m.

(** Membership as the description of the diff words it: any available
    record with the mod id of an installed extension and another version. *)
Definition anyMatchDiffers (s : SessionExtensions) (r : IAvailableExtension)
  : Prop :=
  r ∈ available s /\
  exists ext m, ext ∈ Object_values (installed s) /\
    ext_modId ext = Some m /\ av_modId r = Some m /\
    av_version r <> ext_version ext.

(** One installed extension and two available records for its mod id, the
    first of them at the installed version. *)
Definition twoRecords : SessionExtensions :=
  {| available :=
       [ {| av_name := "ext"; av_modId := Some 7%Z; av_version := "1.0.0" |};
         {| av_name := "ext"; av_modId := Some 7%Z; av_version := "1.1.0" |} ];
     installed :=
       [ ("ext", {| ext_name := "ext"; ext_modId := Some 7%Z;
                    ext_version := "1.0.0" |}) ];
     updateTime := None |}.

(** One installed extension behind the only available record. *)
Definition oneOutdated : SessionExtensions :=
  {| available :=
       [ {| av_name := "ext"; av_modId := Some 7%Z; av_version := "1.1.0" |} ];
     installed :=
       [ ("ext", {| ext_name := "ext"; ext_modId := Some 7%Z;
                    ext_version := "1.0.0" |}) ];
     updateTime := None |}.

(** Notifications handed to [api.sendNotification].  The only action
    callback built in this module is [() => relaunch()]. *)
Inductive ActionFn : Type := Relaunch.

Record NotificationAction : Type := {
  na_title : string;
  na_action : ActionFn;
}.

Record Notification : Type := {
  n_id : string;
  n_type : string;
  n_message : string;
  n_replace_count : option nat;          (* replace: { count } *)
  n_actions : list NotificationAction;
}.

(** Store actions created in [./actions]. *)
Inductive Action : Type :=
| setExtensionsUpdate (time : Z)
| setAvailableExtensions (exts : list IAvailableExtension)
| setInstalledExtensions (exts : list (string * IExtension)).

(** What the module does to the outside, in program order. *)
Inductive Event : Type :=
| SendNotification (n : Notification)
| ShowErrorNotification (title : string) (err : JsError)
| Log (level message : string) (items : list string)
| DownloadAndInstall (ext : IAvailableExtension)
| SetReloadNecessary
| Dispatch (a : Action).

(** The store slice, [localState.reloadNecessary] and the trace of calls. *)
Record World : Type := {
  store : SessionExtensions;
  reloadNecessary : bool;
  trace : list Event;
}.

Definition emit (e : Event) (w : World) : World :=
  {| store := store w; reloadNecessary := reloadNecessary w;
     trace := trace w ++ [e] |}.

(** How a returned promise settles. *)
Inductive Settled : Type :=
| Resolved
| Rejected (err : JsError).

(** What becomes of the promise that [downloadAndInstallExtension(api, ext)]
    returns: it is fulfilled; or it is already rejected when the mapper
    returns it (a throw of the mapper counts as that); or it is rejected
    later, at some time. *)
Inductive Installing : Type :=
| Fulfils
| RejectedAtReturn (err : JsError)
| RejectsLater (time : nat) (err : JsError).

Section Api.

(** [downloadAndInstallExtension] lives in [./util]: here only what becomes
    of the promise it returns for an extension.  [DownloadAndInstall] in the
    trace is the call itself. *)
Variable downloadAndInstallExtension : IAvailableExtension -> Installing.

(** The reducer registered for [session.extensions] lives in [./reducers]. *)
Variable sessionReducer : SessionExtensions -> Action -> SessionExtensions.

Definition dispatch (a : Action) (w : World) : World :=
  emit (Dispatch a)
    {| store := sessionReducer (store w) a;
       reloadNecessary := reloadNecessary w; trace := trace w |}.

Definition setReloadNecessary (w : World) : World :=
  emit SetReloadNecessary
    {| store := store w; reloadNecessary := true; trace := trace w |}.

(** The elements bluebird's [Promise.map] calls the mapper on: it goes
    through the array in order and stops after a call that returned an
    already rejected promise, whose reason is then the second component. *)
Fixpoint mapperCalls (l : list IAvailableExtension)
  : list IAvailableExtension * option JsError :=
  match l with
  | [] => ([], None)
  | ext :: rest =>
    match downloadAndInstallExtension ext with
    | RejectedAtReturn err => ([ext], Some err)
    | _ =>
      let '(started, atReturn) := mapperCalls rest in
      (ext :: started, atReturn)
    end
  end.

(** Among the promises rejected later, the rejection that arrives first
    (two rejections do not arrive at the same time; on equal times the
    earlier element is taken). *)
Fixpoint firstLateRejection (l : list IAvailableExtension)
  : option (nat * JsError) :=
  match l with
  | [] => None
  | ext :: rest =>
    match downloadAndInstallExtension ext, firstLateRejection rest with
    | RejectsLater t err, Some (t', err') =>
      if Nat.leb t t' then Some (t, err) else Some (t', err')
    | RejectsLater t err, None => Some (t, err)
    | _, later => later
    end
  end.

(** [Promise.map(updateable, ext => downloadAndInstallExtension(api, ext))]:
    the mapper calls are made; the result is rejected with the reason of a
    promise rejected at return, else with the first rejection to arrive,
    and resolves when every promise is fulfilled. *)
Definition Promise_map (l : list IAvailableExtension) (w : World)
  : Settled * World :=
  let '(started, atReturn) := mapperCalls l in
  let w' := fold_left (fun w0 ext => emit (DownloadAndInstall ext) w0) started w in
  match atReturn with
  | Some err => (Rejected err, w')
  | None =>
    match firstLateRejection started with
    | Some (_, err) => (Rejected err, w')
    | None => (Resolved, w')
    end
  end.

Definition updatesInfo (count : nat) : Notification :=
  {| n_id := "extension-updates"; n_type := "info";
     n_message := "{{ count }} extensions will be updated";
     n_replace_count := Some count; n_actions := [] |}.

Definition updatesDone : Notification :=
  {| n_id := "extension-updates"; n_type := "success";
     n_message := "Extensions updated, please restart to apply them";
     n_replace_count := None;
     n_actions := [ {| na_title := "Restart now"; na_action := Relaunch |} ] |}.

Definition checkForUpdates (w : World) : Settled * World :=
  let upd := updateable (store w) in
  if Nat.eqb (length upd) 0 then (Resolved, w)
  else
    let w1 := emit (SendNotification (updatesInfo (length upd))) w in
    let w2 := emit (Log "info" "extensions can be updated"
                      (map (fun ext => (av_name ext ++ " v" ++ av_version ext)%string) upd))
                   w1 in
    match Promise_map upd w2 with
    | (Resolved, w3) =>
      let w4 := setReloadNecessary w3 in
      (Resolved, emit (SendNotification updatesDone) w4)
    | (Rejected err, w3) => (Rejected err, w3)
    end.

(** The value [fetchAvailableExtensions] resolves with; [time] is a [Date]
    (its [getTime()] value here), or [null] in the recovery value. *)
Record Fetched : Type := {
  f_time : option Z;
  f_extensions : list IAvailableExtension;
}.

(** [updateAvailableExtensions], given how [fetchAvailableExtensions(true,
    force)] settles. *)
Definition updateAvailableExtensions (fetch : JsError + Fetched) (w : World)
  : Settled * World :=
  let '(v, w1) :=
    match fetch with
    | inl err =>
      ({| f_time := None; f_extensions := [] |},
       emit (ShowErrorNotification "Failed to fetch available extensions" err) w)
    | inr v => (v, w)
    end in
  match f_time v with
  | None => (Rejected TypeError, w1)          (* null.getTime() *)
  | Some t =>
    let w2 := dispatch (setExtensionsUpdate t) w1 in
    let w3 := dispatch (setAvailableExtensions (f_extensions v)) w2 in
    checkForUpdates w3
  end.

End Api.

(** Two installed extensions, each behind its available record. *)
Definition twoOutdated : SessionExtensions :=
  {| available :=
       [ {| av_name := "ext"; av_modId := Some 7%Z; av_version := "1.1.0" |};
         {| av_name := "lib"; av_modId := Some 8%Z; av_version := "2.0.0" |} ];
     installed :=
       [ ("ext", {| ext_name := "ext"; ext_modId := Some 7%Z;
                    ext_version := "1.0.0" |});
         ("lib", {| ext_name := "lib"; ext_modId := Some 8%Z;
                    ext_version := "1.9.0" |}) ];
     updateTime := None |}.

(** The middle of the description of [checkForUpdates], as worded: with a
    non-empty set, every extension in it is downloaded and installed. *)
Definition installsEvery : Prop :=
  forall (install : IAvailableExtension -> Installing) (w : World),
    updateable (store w) <> [] ->
    forall ext, ext ∈ updateable (store w) ->
      DownloadAndInstall ext ∈ trace (snd (checkForUpdates install w)).

(** *** Missing dependencies (lines 93-169) *)

(** [IExtensionLoadFailure] of [../../types/IState].  [args] is optional;
    the one property read from it is [dependencyId], which may be absent. *)
Record IExtensionLoadFailure : Type := {
  fail_id : string;
  fail_args : option (option string);
}.

(** [fail => fail.id === 'dependency'] *)
Definition isDependency (fail : IExtensionLoadFailure) : bool :=
  String.eqb (fail_id fail) "dependency".

(** [if (prev[depId] === undefined) { prev[depId] = []; }
     prev[depId].push(extId);] on an object kept in property order. *)
Fixpoint pushDependent (depId extId : string)
    (prev : list (string * list string)) : list (string * list string) :=
  match prev with
  | [] => [(depId, [extId])]
  | (k, v) :: rest =>
    if String.eqb k depId then (k, v ++ [extId]) :: rest
    else (k, v) :: pushDependent depId extId rest
  end.

(** The body of [deps.forEach] (lines 113-119).  [dep.args.dependencyId]
    throws when [args] is undefined; an undefined [dependencyId] is used as
    the property name ["undefined"].  [prev] starts as a plain [{}]: for a
    name it inherits, [prev[depId]] is not undefined, nothing is assigned,
    and the inherited value has no [push], so the call throws. *)
Definition recordDependency (extId : string)
    (prev : JsError + list (string * list string))
    (dep : IExtensionLoadFailure) : JsError + list (string * list string) :=
  match prev with
  | inl e => inl e
  | inr m =>
    match fail_args dep with
    | None => inl TypeError
    | Some depId =>
      if inheritedName (default "undefined" depId) then inl TypeError
      else inr (pushDependent (default "undefined" depId) extId m)
    end
  end.

(** The reduction over [Object.keys(loadFailures)] (lines 110-121). *)
Definition missingDependencies
    (loadFailures : list (string * list IExtensionLoadFailure))
  : JsError + list (string * list string) :=
  fold_left
    (fun prev entry =>
       fold_left (recordDependency (fst entry))
                 (List.filter isDependency (snd entry)) prev)
    loadFailures (inr []).

(** The warning of [checkMissingDependencies]; its 'Fix' action closes over
    [missingDependencies] and maps over its keys, kept here as a set: the
    order in which [Object.keys] lists them is left open. *)
Record DependencyWarning : Type := {
  dw_type : string;
  dw_message : string;
  dw_action_title : string;
  dw_fix : gset string;
}.

(** [checkMissingDependencies]: the exception it lets out, or the
    notification it sends, if any. *)
Definition checkMissingDependencies
    (loadFailures : list (string * list IExtensionLoadFailure))
  : JsError + option DependencyWarning :=
  match missingDependencies loadFailures with
  | inl e => inl e
  | inr m =>
    if Nat.ltb 0 (length (map fst m)) then
      inr (Some {| dw_type := "warning";
                   dw_message :=
                     "Some of the installed extensions couldn't be loaded because "
                     ++ "they have missing dependencies.";
                   dw_action_title := "Fix";
                   dw_fix := list_to_set (map fst m) |})
    else inr None
  end.

(** Calls made by the functions below, with all their arguments. *)
Inductive ErrorDetails : Type :=
| ErrValue (e : JsError)
| ErrText (text : string).

Record ErrorOptions : Type := {
  eo_message : option string;
  eo_allowReport : option bool;
}.

Inductive Call : Type :=
| CallInstall (ext : IAvailableExtension)
| CallShowError (title : string) (details : ErrorDetails) (options : ErrorOptions)
| CallDispatch (a : Action)
| CallSetReload.

Record Session : Type := {
  ses_store : SessionExtensions;
  ses_reload : bool;                      (* localState.reloadNecessary *)
  ses_calls : list Call;
}.

Definition call (c : Call) (s : Session) : Session :=
  {| ses_store := ses_store s; ses_reload := ses_reload s;
     ses_calls := ses_calls s ++ [c] |}.

Section Dependencies.

(** [downloadAndInstallExtension] and [readExtensions] live in [./util]:
    whether the install of an extension resolves, and what reading the
    extension directory gives after the calls made so far. *)
Variable downloadAndInstallExtension : IAvailableExtension -> option JsError.
Variable readExtensions : list Call -> JsError + list (string * IExtension).

(** [_.isEqual] on two [installed] objects. *)
Variable isEqual : list (string * IExtension) -> list (string * IExtension) -> bool.

Variable sessionReducer : SessionExtensions -> Action -> SessionExtensions.

Definition storeDispatch (a : Action) (s : Session) : Session :=
  call (CallDispatch a)
    {| ses_store := sessionReducer (ses_store s) a;
       ses_reload := ses_reload s; ses_calls := ses_calls s |}.

Definition setReload (s : Session) : Session :=
  call CallSetReload
    {| ses_store := ses_store s; ses_reload := true; ses_calls := ses_calls s |}.

(** The function returned by [genUpdateInstalledExtensions(api)]. *)
Definition genUpdateInstalledExtensions (initial : bool) (s : Session)
  : Settled * Session :=
  match readExtensions (ses_calls s) with
  | inr ext =>
    let s1 :=
      if negb initial && negb (isEqual (installed (ses_store s)) ext)
      then setReload s else s in
    (Resolved, storeDispatch (setInstalledExtensions ext) s1)
  | inl err =>
    (Resolved,
     call (CallShowError "Failed to read extension directory" (ErrValue err)
             {| eo_message := None; eo_allowReport := Some false |}) s)
  end.

(** [installDependency]: the promise rejects ([inl]) or resolves with a
    boolean. *)
Definition installDependency (extName : string)
    (updateInstalled : bool -> Session -> Settled * Session) (s : Session)
  : (JsError + bool) * Session :=
  match find (fun iter => String.eqb (av_name iter) extName)
             (available (ses_store s)) with
  | Some ext =>
    let s1 := call (CallInstall ext) s in
    match downloadAndInstallExtension ext with
    | Some err => (inl err, s1)
    | None =>
      match updateInstalled false s1 with
      | (Resolved, s2) => (inr true, s2)
      | (Rejected err, s2) => (inl err, s2)
      end
    end
  | None => (inr false, s)
  end.

(** The mapper of the 'Fix' action for one dependency (lines 131-145). *)
Definition fixDependency (depId : string) (s : Session) : Settled * Session :=
  match installDependency depId genUpdateInstalledExtensions s with
  | (inr results, s1) =>
    if results then (Resolved, s1)
    else
      (Resolved,
       call (CallShowError "Failed to install extension" (ErrText "Not found")
               {| eo_message := Some depId; eo_allowReport := Some false |}) s1)
  | (inl err, s1) =>
    (Resolved,
     call (CallShowError "Failed to install extension" (ErrValue err)
             {| eo_message := Some depId; eo_allowReport := None |}) s1)
  end.

End Dependencies.

(** *** Notions used in the statements *)

(** The extensions that a load-failure table reports as depending on
    [depId], in table order, one entry per failure. *)
Definition dependentsOf (depId : string)
    (loadFailures : list (string * list IExtensionLoadFailure)) : list string :=
  concat
    (map (fun entry =>
            map (fun _ => fst entry)
                (List.filter
                   (fun fail =>
                      isDependency fail
                      && match fail_args fail with
                         | Some d => String.eqb (default "undefined" d) depId
                         | None => false
                         end)
                   (snd entry)))
         loadFailures).

(** Some 'dependency' failure of the table has no [args]. *)
Definition lacksArgs (loadFailures : list (string * list IExtensionLoadFailure))
  : Prop :=
  exists entry fail, entry ∈ loadFailures /\ fail ∈ snd entry /\
    isDependency fail = true /\ fail_args fail = None.

(** Some 'dependency' failure of the table names, as its dependency, a
    property that a plain object inherits. *)
Definition namesInherited
    (loadFailures : list (string * list IExtensionLoadFailure)) : Prop :=
  exists entry fail d, entry ∈ loadFailures /\ fail ∈ snd entry /\
    isDependency fail = true /\ fail_args fail = Some d /\
    inheritedName (default "undefined" d) = true.

(** Some failure of the table is a 'dependency' failure. *)
Definition hasDependencyFailure
    (loadFailures : list (string * list IExtensionLoadFailure)) : Prop :=
  exists entry fail, entry ∈ loadFailures /\ fail ∈ snd entry /\
    isDependency fail = true.

(** [o[key]] for an object kept in property order. *)
Definition propertyOf {A} (key : string) (o : list (string * A)) : option A :=
  snd <$> find (fun e => String.eqb (fst e) key) o.

(** The 'dependency' failures of a table in the order the reduction meets
    them, each with the extension it belongs to. *)
Definition dependencySeq
    (loadFailures : list (string * list IExtensionLoadFailure))
  : list (string * IExtensionLoadFailure) :=
  concat (map (fun entry => map (fun fail => (fst entry, fail))
                                (List.filter isDependency (snd entry)))
              loadFailures).

(** The property name a failure is filed under is [depId]. *)
Definition filedUnder (depId : string) (p : string * IExtensionLoadFailure)
  : bool :=
  match fail_args (snd p) with
  | Some d => String.eqb (default "undefined" d) depId
  | None => false
  end.

(** A table in which two extensions miss the same dependency, and one entry
    with another kind of failure. *)
Definition sampleFailures : list (string * list IExtensionLoadFailure) :=
  [ ("mod-a", [ {| fail_id := "dependency"; fail_args := Some (Some "lib") |} ]);
    ("mod-b", [ {| fail_id := "exception"; fail_args := None |} ]);
    ("mod-c", [ {| fail_id := "dependency"; fail_args := Some (Some "lib") |};
                {| fail_id := "dependency"; fail_args := Some (Some "ui") |} ]) ].

(** A session whose store is [oneOutdated]. *)
Definition sampleSession : Session :=
  {| ses_store := oneOutdated; ses_reload := false; ses_calls := [] |}.

(** [s'] is [s] with calls added, and the flag is not taken back. *)
Definition extends (s s' : Session) : Prop :=
  (exists more, ses_calls s' = ses_calls s ++ more) /\
  (ses_reload s = true -> ses_reload s' = true).

End ExtensionManager.

(** ** Notifications and dialogs *)

Module Notifications.

Set Implicit Arguments.

(** [process.type] of the two Electron processes. *)
Inductive ProcessType : Type := browser | renderer.

#[global] Instance ProcessType_eq_dec : EqDecision ProcessType.
Proof. solve_decision. Defined.

(** Outcome of running a piece of JavaScript on a state [S]: it returns, or
    it throws; the effects made before a throw stay. *)
Inductive Outcome (S : Type) : Type :=
| Normal (s : S)
| Throws (e : JsError) (s : S).
Arguments Normal {S} s.
Arguments Throws {S} e s.

Definition stateOf {S} (o : Outcome S) : S :=
  match o with Normal s => s | Throws _ s => s end.

Definition mapOutcome {S T} (f : S -> T) (o : Outcome S) : Outcome T :=
  match o with Normal s => Normal (f s) | Throws e s => Throws e (f s) end.

(** Handle returned by [setTimeout]. *)
Abbreviation Timer := nat (only parsing).

(** [arr[i]] for a number [i]: [undefined] below zero and past the end. *)
Definition jsIndex {A} (l : list A) (i : Z) : option A :=
  if (i <? 0)%Z then None else l !! Z.to_nat i.

Section Model.

(** Function values supplied by callers, the rest of a process's memory
    that such functions work on, and the payloads passed through. *)
Variable Func : Type.
Variable Heap : Type.
Variable Any : Type.
Variable Content : Type.

(** *** Data declared in [../types] *)

Record INotificationAction : Type := {
  act_title : option string;
  act_action : option Func;
}.

Record INotification : Type := {
  noti_id : option string;
  noti_type : string;
  noti_message : string;
  noti_displayMS : option Z;
  noti_actions : option (list INotificationAction);
}.

Definition noti_with_id (i : string) (n : INotification) : INotification :=
  {| noti_id := Some i; noti_type := noti_type n;
     noti_message := noti_message n; noti_displayMS := noti_displayMS n;
     noti_actions := noti_actions n |}.

(** The plain object that reaches the store. *)
Record IStoredAction : Type := { sa_title : option string }.

Record IStoredNotification : Type := {
  sn_id : string;
  sn_type : string;
  sn_message : string;
  sn_displayMS : option Z;
  sn_process : ProcessType;
  sn_actions : list IStoredAction;
}.

Record IDialogAction : Type := {
  da_label : string;
  da_default : bool;                 (* [default === true] *)
  da_action : option Func;
}.

Record IDialogResult : Type := {
  res_action : string;
  res_input : option Any;
}.

(** Actions of [safeCreateAction]. *)
Inductive Action : Type :=
| startNotification (n : IStoredNotification)
| stopNotification (id : string)
| addDialog (id type title : string) (content : Content)
            (defaultAction : option string) (actions : list string)
| dismissDialog (id : string).

(** *** Process state *)

(** The closure stored by [showDialog]: it captures [actions] and the
    [resolve] of the promise being built. *)
Record DialogClosure : Type := {
  dc_actions : list IDialogAction;
  dc_promise : nat;
}.

(** A property of [global.__dialogCallbacks]: [null] or a closure. *)
Inductive DialogSlot : Type :=
| SlotNull
| SlotFn (c : DialogClosure).

Record Proc : Type := {
  heap : Heap;
  timers : gmap string Timer;                         (* 'notification-timers' *)
  notificationActions : gmap string (list (option Func));
  timeouts : gmap Timer (string * Z);                 (* live [setTimeout]s *)
  nextTimer : Timer;
  dialogCallbacks : gmap string DialogSlot;           (* global.__dialogCallbacks *)
  promises : list (option IDialogResult);             (* [None]: pending *)
  dispatched : list Action;                           (* oldest first *)
  shortids : nat;                                     (* ids generated so far *)
}.

Definition set_heap (h : Heap) (p : Proc) : Proc :=
  {| heap := h; timers := timers p;
     notificationActions := notificationActions p; timeouts := timeouts p;
     nextTimer := nextTimer p; dialogCallbacks := dialogCallbacks p;
     promises := promises p; dispatched := dispatched p;
     shortids := shortids p |}.

Definition set_timers (m : gmap string Timer) (p : Proc) : Proc :=
  {| heap := heap p; timers := m;
     notificationActions := notificationActions p; timeouts := timeouts p;
     nextTimer := nextTimer p; dialogCallbacks := dialogCallbacks p;
     promises := promises p; dispatched := dispatched p;
     shortids := shortids p |}.

Definition set_notificationActions
    (m : gmap string (list (option Func))) (p : Proc) : Proc :=
  {| heap := heap p; timers := timers p;
     notificationActions := m; timeouts := timeouts p;
     nextTimer := nextTimer p; dialogCallbacks := dialogCallbacks p;
     promises := promises p; dispatched := dispatched p;
     shortids := shortids p |}.

Definition set_timeouts (m : gmap Timer (string * Z)) (p : Proc) : Proc :=
  {| heap := heap p; timers := timers p;
     notificationActions := notificationActions p; timeouts := m;
     nextTimer := nextTimer p; dialogCallbacks := dialogCallbacks p;
     promises := promises p; dispatched := dispatched p;
     shortids := shortids p |}.

Definition set_nextTimer (t : Timer) (p : Proc) : Proc :=
  {| heap := heap p; timers := timers p;
     notificationActions := notificationActions p; timeouts := timeouts p;
     nextTimer := t; dialogCallbacks := dialogCallbacks p;
     promises := promises p; dispatched := dispatched p;
     shortids := shortids p |}.

Definition set_dialogCallbacks (m : gmap string DialogSlot) (p : Proc) : Proc :=
  {| heap := heap p; timers := timers p;
     notificationActions := notificationActions p; timeouts := timeouts p;
     nextTimer := nextTimer p; dialogCallbacks := m;
     promises := promises p; dispatched := dispatched p;
     shortids := shortids p |}.

Definition set_promises (l : list (option IDialogResult)) (p : Proc) : Proc :=
  {| heap := heap p; timers := timers p;
     notificationActions := notificationActions p; timeouts := timeouts p;
     nextTimer := nextTimer p; dialogCallbacks := dialogCallbacks p;
     promises := l; dispatched := dispatched p;
     shortids := shortids p |}.

Definition set_dispatched (l : list Action) (p : Proc) : Proc :=
  {| heap := heap p; timers := timers p;
     notificationActions := notificationActions p; timeouts := timeouts p;
     nextTimer := nextTimer p; dialogCallbacks := dialogCallbacks p;
     promises := promises p; dispatched := l;
     shortids := shortids p |}.

Definition set_shortids (n : nat) (p : Proc) : Proc :=
  {| heap := heap p; timers := timers p;
     notificationActions := notificationActions p; timeouts := timeouts p;
     nextTimer := nextTimer p; dialogCallbacks := dialogCallbacks p;
     promises := promises p; dispatched := dispatched p;
     shortids := n |}.

(** A freshly started process: nothing registered, nothing dispatched. *)
Definition initial (h : Heap) : Proc :=
  {| heap := h; timers := ∅; notificationActions := ∅; timeouts := ∅;
     nextTimer := 0; dialogCallbacks := ∅; promises := [];
     dispatched := []; shortids := 0 |}.

(** *** Foreign code

    A notification callback receives [dismiss] and may call it any number
    of times while it runs; apart from that it works on the heap.  Its run
    is a tree: it ends ([Return]), or it calls [dismiss] on the heap it
    has reached and goes on from whatever that call did ([CallDismiss]).
    A callback that re-enters this module by another way is not covered. *)
Inductive Run : Type :=
| Return (o : Outcome Heap)
| CallDismiss (h : Heap) (k : Outcome Heap -> Run).

(** [func(dismiss)] for a notification callback. *)
Variable notificationFunc : Func -> Heap -> Run.

(** [action.action(input)] for a dialog action; it works on the heap too. *)
Variable dialogFunc : Func -> option Any -> Heap -> Outcome Heap.

(** [shortid()]: the n-th id handed out. *)
Variable shortidAt : nat -> string.

(** Calls that matter to the claims, in program order. *)
Inductive Event : Type :=
| Invoke (pt : ProcessType) (f : Func)        (* a registered callback is called *)
| DismissCall                                 (* the [dismiss] argument is called *)
| SendSync (notiId : string) (action : Z)     (* [ipcRenderer.sendSync] *)
| ReturnValueTrue                             (* the continuation built by the handler runs *)
| UncaughtInMain (e : JsError)                (* the handler let an exception out *)
| DialogCallbackCall (id : string)            (* the stored dialog callback is called *)
| LogError (message id actionKey : string).   (* [log('error', ...)] *)

Definition Result : Type := Outcome Proc * list Event.

Definition shortid (p : Proc) : string * Proc :=
  (shortidAt (shortids p), set_shortids (S (shortids p)) p).

Definition dispatch (a : Action) (p : Proc) : Proc :=
  set_dispatched (dispatched p ++ [a]) p.

Definition setTimeout (notiId : string) (ms : Z) (p : Proc) : Timer * Proc :=
  let t := nextTimer p in
  (t, set_nextTimer (S t) (set_timeouts (<[t := (notiId, ms)]> (timeouts p)) p)).

Definition clearTimeout (t : Timer) (p : Proc) : Proc :=
  set_timeouts (delete t (timeouts p)) p.

(** *** [fireNotificationAction] and the handler on [ipcMain] *)

(** Running a callback whose [dismiss] is the caller's function. *)
Fixpoint runWithDismiss (dismiss : Proc -> Outcome Proc) (r : Run) (p : Proc)
  : Result :=
  match r with
  | Return o => (mapOutcome (fun h => set_heap h p) o, [])
  | CallDismiss h k =>
    let o := dismiss (set_heap h p) in
    let '(o', t) := runWithDismiss dismiss (k (mapOutcome heap o)) (stateOf o) in
    (o', DismissCall :: t)
  end.

(** Running a callback whose [dismiss] is
    [() => { event.returnValue = true; }]. *)
Fixpoint runWithReturnValue (r : Run) (p : Proc) (returnValue : bool)
  : Outcome Proc * bool * list Event :=
  match r with
  | Return o => (mapOutcome (fun h => set_heap h p) o, returnValue, [])
  | CallDismiss h k =>
    let '(o', rv, t) := runWithReturnValue (k (Normal h)) (set_heap h p) true in
    (o', rv, ReturnValueTrue :: t)
  end.

(** The listener on ['fire-notification-action'] (lines 73-82); the second
    component is [event.returnValue] when the listener is left.  The
    property is taken as a plain field of the event: the reply is its last
    value.  The registry is a plain [{}]: an id without entry that names an
    inherited property gives the inherited value, which has nothing at a
    numeric index, so nothing is called and nothing thrown. *)
Definition ipcMainListener (notiId : string) (action : Z) (p : Proc)
  : Outcome Proc * bool * list Event :=
  let returnValue := false in
  match notificationActions p !! notiId with
  | None =>
    if inheritedName notiId then (Normal p, returnValue, [])
    else (Throws TypeError p, returnValue, [])         (* undefined[action] *)
  | Some funcs =>
    match jsIndex funcs action with
    | Some (Some func) =>
      let '(o, rv, t) :=
        runWithReturnValue (notificationFunc func (heap p)) p returnValue in
      (o, rv, Invoke browser func :: t)
    | _ => (Normal p, returnValue, [])
    end
  end.

(** The browser (main) process and a renderer process. *)
Record System : Type := {
  browserProc : Proc;
  rendererProc : Proc;
}.

Definition getProc (pt : ProcessType) (s : System) : Proc :=
  match pt with browser => browserProc s | renderer => rendererProc s end.

Definition setProc (pt : ProcessType) (p : Proc) (s : System) : System :=
  match pt with
  | browser => {| browserProc := p; rendererProc := rendererProc s |}
  | renderer => {| browserProc := browserProc s; rendererProc := p |}
  end.

(** Modelled from the spec: Electron's [ipcRenderer.sendSync] and the
    delivery to the listener on [ipcMain] are not part of the sources.  The
    spec calls the bridge a synchronous request/response call between the
    two process contexts, used to invoke the callback where its owner lives:
    [sendSync('fire-notification-action', notiId, action)] in the renderer
    runs the listener in the browser process and answers with
    [event.returnValue]; an exception of the listener stays over there. *)
Definition sendSync (notiId : string) (action : Z) (s : System)
  : bool * System * list Event :=
  let '(o, rv, t) := ipcMainListener notiId action (browserProc s) in
  let uncaught := match o with Normal _ => [] | Throws e _ => [UncaughtInMain e] end in
  (rv, setProc browser (stateOf o) s, SendSync notiId action :: t ++ uncaught).

Definition SysResult : Type := Outcome System * list Event.

(** The branch of [fireNotificationAction] taken when the notification
    belongs to the running process (lines 58-61).  As in the listener, an
    id without entry that names an inherited property of the plain registry
    object gives a value with nothing at the index. *)
Definition fireSameProcess (pt : ProcessType) (notiId : string) (action : Z)
    (dismiss : Proc -> Outcome Proc) (s : System) : SysResult :=
  let p := getProc pt s in
  match notificationActions p !! notiId with
  | None =>
    if inheritedName notiId then (Normal s, [])
    else (Throws TypeError s, [])                      (* undefined[action] *)
  | Some funcs =>
    match jsIndex funcs action with
    | Some (Some func) =>
      let '(o, t) := runWithDismiss dismiss (notificationFunc func (heap p)) p in
      (mapOutcome (fun p' => setProc pt p' s) o, Invoke pt func :: t)
    | _ => (Normal s, [])
    end
  end.

(** The other branch (lines 65-68).  [ipcRenderer] exists in a renderer
    only; in the browser process the member access throws. *)
Definition fireViaIpc (pt : ProcessType) (notiId : string) (action : Z)
    (dismiss : Proc -> Outcome Proc) (s : System) : SysResult :=
  match pt with
  | browser => (Throws TypeError s, [])
  | renderer =>
    let '(res, s1, t) := sendSync notiId action s in
    if res then
      (mapOutcome (fun p' => setProc pt p' s1) (dismiss (getProc pt s1)),
       t ++ [DismissCall])
    else (Normal s1, t)
  end.

(** [fireNotificationAction] run in the process of type [pt]. *)
Definition fireNotificationAction (pt : ProcessType)
    (notiId : string) (notiProcess : ProcessType) (action : Z)
    (dismiss : Proc -> Outcome Proc) (s : System) : SysResult :=
  if decide (notiProcess = pt) then fireSameProcess pt notiId action dismiss s
  else fireViaIpc pt notiId action dismiss s.

(** *** [addNotification] and [dismissNotification] *)

(** [JSON.parse(JSON.stringify(actions))]: a property holding a function
    is left out, so each action keeps its title alone. *)
Definition JSON_roundtrip_actions (l : list INotificationAction)
  : list IStoredAction :=
  map (fun a => {| sa_title := act_title a |}) l.

(** [storeNoti] as dispatched (lines 109-111); [id] is [noti.id]. *)
Definition storeNotiOf (pt : ProcessType) (id : string) (noti : INotification)
  : IStoredNotification :=
  {| sn_id := id;
     sn_type := noti_type noti;
     sn_message := noti_message noti;
     sn_displayMS := noti_displayMS noti;
     sn_process := pt;
     sn_actions :=
       map (fun a => {| sa_title := sa_title a |})
           (default [] (JSON_roundtrip_actions <$> noti_actions noti)) |}.

(** [noti.actions === undefined ? [] : noti.actions.map(action => action.action)] *)
Definition callbacksOf (noti : INotification) : list (option Func) :=
  match noti_actions noti with
  | None => []
  | Some l => map act_action l
  end.

(** What a call of the thunk of [addNotification] leaves behind: the
    caller's object, the id in use, the timer it started and the state. *)
Record Added : Type := {
  added_caller : INotification;
  added_id : string;
  added_timer : option Timer;
  added_proc : Proc;
}.

Definition addNotification (pt : ProcessType) (notification : INotification)
    (p : Proc) : Added :=
  let noti := notification in                          (* { ...notification } *)
  let '(id, noti, p1) :=
    match noti_id noti with
    | None =>
      let '(i, p') := shortid p in (i, noti_with_id i noti, p')
    | Some i =>
      match timers p !! i with
      | Some t =>
        let p' := clearTimeout t p in
        let p' := set_timers (delete i (timers p')) p' in
        let p' := set_notificationActions (delete i (notificationActions p')) p' in
        (i, noti, p')
      | None => (i, noti, p)
      end
    end in
  let p2 :=
    set_notificationActions (<[id := callbacksOf noti]> (notificationActions p1)) p1 in
  let p3 := dispatch (startNotification (storeNotiOf pt id noti)) p2 in
  match noti_displayMS noti with
  | Some ms =>
    let '(t, p4) := setTimeout id ms p3 in
    {| added_caller := notification; added_id := id; added_timer := Some t;
       added_proc := set_timers (<[id := t]> (timers p4)) p4 |}
  | None =>
    {| added_caller := notification; added_id := id; added_timer := None;
       added_proc := p3 |}
  end.

Definition dismissNotification (id : string) (p : Proc) : Proc :=
  let p1 := set_timers (delete id (timers p)) p in
  let p2 := set_notificationActions (delete id (notificationActions p1)) p1 in
  dispatch (stopNotification id) p2.

(** The timeout [t] elapses: [resolve()] settles the promise of
    [addNotification] and its [then] dispatches [dismissNotification].  A
    timeout that was cleared, or has fired already, does nothing. *)
Definition timerFires (t : Timer) (p : Proc) : Proc :=
  match timeouts p !! t with
  | None => p
  | Some (id, _) => dismissNotification id (clearTimeout t p)
  end.

(** *** [showDialog] and [closeDialog] *)

Definition resolve (n : nat) (v : IDialogResult) (p : Proc) : Proc :=
  match promises p !! n with
  | Some None => set_promises (<[n := Some v]> (promises p)) p
  | _ => p
  end.

(** The callback stored under the dialog id (lines 166-172). *)
Definition dialogCallback (c : DialogClosure) (actionKey : string)
    (input : option Any) (p : Proc) : Outcome Proc :=
  match find (fun iter => String.eqb (da_label iter) actionKey) (dc_actions c) with
  | None => Throws TypeError p                         (* undefined.action *)
  | Some action =>
    let o :=
      match da_action action with                      (* truthy(action.action) *)
      | Some f => mapOutcome (fun h => set_heap h p) (dialogFunc f input (heap p))
      | None => Normal p
      end in
    match o with
    | Normal p1 =>
      Normal (resolve (dc_promise c)
                {| res_action := actionKey; res_input := input |} p1)
    | Throws e p1 => Throws e p1
    end
  end.

(** A started dialog: its id, the promise returned, and the state. *)
Record Shown : Type := {
  shown_id : string;
  shown_promise : nat;
  shown_proc : Proc;
}.

Definition showDialog (type title : string) (content : Content)
    (actions : list IDialogAction) (p : Proc) : Shown :=
  let promise := length (promises p) in
  let p0 := set_promises (promises p ++ [None]) p in
  let '(id, p1) := shortid p0 in
  let defaultAction := find (fun iter => da_default iter) actions in
  let defaultLabel := da_label <$> defaultAction in
  let p2 := dispatch (addDialog id type title content defaultLabel
                        (map da_label actions)) p1 in
  {| shown_id := id; shown_promise := promise;
     shown_proc :=
       set_dialogCallbacks
         (<[id := SlotFn {| dc_actions := actions; dc_promise := promise |}]>
            (dialogCallbacks p2)) p2 |}.

Definition closeDialog (id actionKey : string) (input : option Any) (p : Proc)
  : Result :=
  let p1 := dispatch (dismissDialog id) p in
  (* try *)
  let '(o, t) :=
    match dialogCallbacks p1 !! id with
    | Some SlotNull => (Normal p1, [])
    | Some (SlotFn c) =>
      (dialogCallback c actionKey input p1, [DialogCallbackCall id])
    | None => (Throws TypeError p1, [])                (* undefined(...) *)
    end in
  (* catch *)
  let '(o, t) :=
    match o with
    | Normal p2 => (Normal p2, t)
    | Throws _ p2 =>
      (Normal p2,
       t ++ [LogError "failed to invoke dialog callback" id actionKey])
    end in
  (* finally *)
  (mapOutcome (fun p3 => set_dialogCallbacks (delete id (dialogCallbacks p3)) p3) o,
   t).

(** *** Notions used in the statements *)

(** A callback run whose [dismiss] is the continuation of the listener,
    which returns at once and changes nothing: where the run ends, and how
    often it calls the continuation on its way. *)
Fixpoint runOutcome (r : Run) : Outcome Heap :=
  match r with
  | Return o => o
  | CallDismiss h k => runOutcome (k (Normal h))
  end.

Fixpoint continuationCalls (r : Run) : nat :=
  match r with
  | Return _ => 0
  | CallDismiss h k => S (continuationCalls (k (Normal h)))
  end.

(** Number of calls of a stored dialog callback in a trace. *)
Definition dialogCalls (t : list Event) : nat :=
  length (List.filter
            (fun e => match e with DialogCallbackCall _ => true | _ => false end) t).

(** Every stored dialog closure resolves a promise that exists. *)
Definition dialogs_wf (p : Proc) : Prop :=
  forall id c, dialogCallbacks p !! id = Some (SlotFn c) ->
               dc_promise c < length (promises p).

(** The dialog has an action labelled [actionKey] and its callback, if it
    has one, returns. *)
Definition actionReturns (actions : list IDialogAction) (actionKey : string)
    (input : option Any) (h : Heap) : Prop :=
  exists action,
    find (fun iter => String.eqb (da_label iter) actionKey) actions = Some action /\
    match da_action action with
    | Some f => exists h', dialogFunc f input h = Normal h'
    | None => True
    end.

(** The second half of the description of [fireNotificationAction], as
    worded: with no callback registered at the index for the id, the call
    in the owning process invokes nothing and returns. *)
Definition firesSafely : Prop :=
  forall pt notiId action dismiss s,
    (forall funcs f, notificationActions (getProc pt s) !! notiId = Some funcs ->
                     jsIndex funcs action <> Some (Some f)) ->
    fireNotificationAction pt notiId pt action dismiss s = (Normal s, []).

(** The description of [showDialog], as worded: closing the dialog, with
    whatever key, resolves its promise with that key and input. *)
Definition resolvesOnClose : Prop :=
  forall type title content actions actionKey input p,
    let sh := showDialog type title content actions p in
    promises (stateOf (fst (closeDialog (shown_id sh) actionKey input (shown_proc sh))))
      !! shown_promise sh
    = Some (Some {| res_action := actionKey; res_input := input |}).

(** Every timer handle in use was handed out by [setTimeout] before. *)
Definition timers_wf (p : Proc) : Prop :=
  (forall t x, timeouts p !! t = Some x -> t < nextTimer p) /\
  (forall i t, timers p !! i = Some t -> t < nextTimer p).

(** *** Sample data *)

(** A notification with id "x" that goes away after a second, and an
    untimed one that reuses the id. *)
Definition timedNotification : INotification :=
  {| noti_id := Some "x"; noti_type := "info"; noti_message := "working";
     noti_displayMS := Some 1000%Z; noti_actions := None |}.

Definition untimedNotification (f : Func) : INotification :=
  {| noti_id := Some "x"; noti_type := "success"; noti_message := "done";
     noti_displayMS := None;
     noti_actions := Some [ {| act_title := Some "Open"; act_action := Some f |} ] |}.

End Model.

(** Sample callbacks over a heap that is a counter: function 0 counts and
    returns, function 1 calls [dismiss] and returns, any other throws. *)
Definition sampleNotificationFunc (f : nat) (h : nat) : Run nat :=
  match f with
  | 0 => Return (Normal (S h))
  | 1 => CallDismiss h (fun o => Return o)
  | _ => Return (Throws (UserError "callback failed") h)
  end.

Definition sampleDialogFunc (f : nat) (input : option string) (h : nat)
  : Outcome nat :=
  match f with
  | 0 => Normal (S h)
  | _ => Throws (UserError "callback failed") h
  end.

Definition sampleShortid (n : nat) : string :=
  match n with
  | 0 => "rJ1"
  | 1 => "rJ2"
  | _ => "rJ3"
  end.

Definition sampleActions : list (IDialogAction nat) :=
  [ {| da_label := "Cancel"; da_default := false; da_action := None |};
    {| da_label := "Confirm"; da_default := true; da_action := Some 0 |};
    {| da_label := "Retry"; da_default := false; da_action := Some 2 |} ].

Definition sampleProc : Proc nat nat string string :=
  initial nat string string 0.

(** A browser process that has shown the given notification, and a renderer
    that has shown nothing. *)
Definition sampleSystem (n : INotification nat) : System nat nat string string :=
  {| browserProc := added_proc (addNotification sampleShortid browser n sampleProc);
     rendererProc := sampleProc |}.

(** A process in which the sample dialog is open. *)
Definition sampleDialog : Shown nat nat string string :=
  showDialog sampleShortid "question" "Proceed?" "text" sampleActions sampleProc.

(** Two actions with one label: the callback of the first throws, that of
    the second returns. *)
Definition twiceLabelled : list (IDialogAction nat) :=
  [ {| da_label := "Retry"; da_default := false; da_action := Some 2 |};
    {| da_label := "Retry"; da_default := false; da_action := Some 0 |} ].

(** The promise of a dialog with the given actions, shown in the sample
    process and then closed with [actionKey], is still pending. *)
Definition staysPending (actions : list (IDialogAction nat)) (actionKey : string)
  : Prop :=
  let sh := showDialog sampleShortid "question" "Proceed?" "text" actions
              sampleProc in
  promises (stateOf (fst (closeDialog sampleDialogFunc (shown_id sh) actionKey
                            None (shown_proc sh))))
    !! shown_promise sh
  = Some None.

Arguments startNotification {Content} n.
Arguments stopNotification {Content} id.
Arguments dismissDialog {Content} id.
Arguments SlotNull {Func}.
Arguments DismissCall {Func}.
Arguments SendSync {Func} notiId action.
Arguments ReturnValueTrue {Func}.
Arguments UncaughtInMain {Func} e.
Arguments DialogCallbackCall {Func} id.
Arguments LogError {Func} message id actionKey.

End Notifications.

(** * Properties of the extension manager *)

Module ExtensionManagerFacts.
Import ExtensionManager.

(** [Array.prototype.find] returns the first element the predicate accepts. *)
Lemma find_first {A} (f : A -> bool) (l : list A) (x : A) :
  find f l = Some x <->
  exists i, l !! i = Some x /\ f x = true /\
            forall j y, j < i -> l !! j = Some y -> f y = false.
Proof.
  induction l as [|a l IH]; simpl.
  - split; [discriminate|]. intros (i & Hi & _). by destruct i.
  - destruct (f a) eqn:Ha.
    + split.
      * intros [= <-]. exists 0. repeat split; auto. intros j y Hj. lia.
      * intros (i & Hi & Hx & Hmin). destruct i as [|i]; simpl in Hi.
        { congruence. }
        specialize (Hmin 0 a ltac:(lia) eq_refl). congruence.
    + rewrite IH. split.
      * intros (i & Hi & Hx & Hmin). exists (S i). repeat split; auto.
        intros [|j] y Hj Hy; simpl in Hy.
        { congruence. }
        apply (Hmin j); auto. lia.
      * intros (i & Hi & Hx & Hmin). destruct i as [|i]; simpl in Hi.
        { congruence. }
        exists i. repeat split; auto. intros j y Hj Hy.
        apply (Hmin (S j)); auto. lia.
Qed.

Lemma findAvailable_first avail m r :
  findAvailable avail (Some m) = Some r <-> firstWithModId avail m r.
Proof.
  unfold findAvailable, firstWithModId. rewrite find_first.
  split; intros (i & Hi & Hx & Hmin); exists i; repeat split; auto.
  - by apply bool_decide_eq_true in Hx.
  - intros j r' Hj Hr'. specialize (Hmin j r' Hj Hr').
    by apply bool_decide_eq_false in Hmin.
  - by apply bool_decide_eq_true.
  - intros j r' Hj Hr'. apply bool_decide_eq_false. eauto.
Qed.

Lemma updateStep_app avail prev ext :
  updateStep avail prev ext = prev ++ contribution avail ext.
Proof.
  unfold contribution, updateStep.
  destruct (ext_modId ext); [|by rewrite app_nil_r].
  destruct (findAvailable avail _); [|by rewrite app_nil_r].
  destruct (String.eqb _ _); [by rewrite app_nil_r|done].
Qed.

Lemma fold_updateStep avail exts prev :
  fold_left (updateStep avail) exts prev
  = prev ++ concat (map (contribution avail) exts).
Proof.
  revert prev. induction exts as [|e exts IH]; intros prev; simpl.
  - by rewrite app_nil_r.
  - rewrite IH, updateStep_app, <- app_assoc. done.
Qed.

Lemma updateable_concat s :
  updateable s
  = concat (map (contribution (available s)) (Object_values (installed s))).
Proof. unfold updateable. by rewrite fold_updateStep. Qed.

Lemma contribution_elem avail ext r :
  r ∈ contribution avail ext <->
  exists m, ext_modId ext = Some m /\ firstWithModId avail m r /\
            av_version r <> ext_version ext.
Proof.
  unfold contribution, updateStep.
  destruct (ext_modId ext) as [m|] eqn:Hm.
  - destruct (findAvailable avail (Some m)) as [cur|] eqn:Hf.
    + destruct (String.eqb (av_version cur) (ext_version ext)) eqn:Hv; simpl.
      * apply String.eqb_eq in Hv. split.
        { intros H. by apply elem_of_nil in H. }
        intros (m' & [= <-] & Hfirst & Hne).
        apply findAvailable_first in Hfirst. congruence.
      * apply String.eqb_neq in Hv. rewrite list_elem_of_singleton. split.
        { intros ->. exists m. split; [done|]. split; [|done].
          by apply findAvailable_first. }
        intros (m' & [= <-] & Hfirst & Hne).
        apply findAvailable_first in Hfirst. congruence.
    + split.
      { intros H. by apply elem_of_nil in H. }
      intros (m' & [= <-] & Hfirst & Hne).
      apply findAvailable_first in Hfirst. congruence.
  - split.
    { intros H. by apply elem_of_nil in H. }
    intros (m' & Hm' & _). discriminate.
Qed.

Lemma elem_of_concat {A} (x : A) (ls : list (list A)) :
  x ∈ concat ls <-> exists l, x ∈ l /\ l ∈ ls.
Proof.
  induction ls as [|l ls IH]; simpl.
  - split; [intros H; by apply elem_of_nil in H|].
    intros (l & _ & H). by apply elem_of_nil in H.
  - rewrite elem_of_app, IH. split.
    + intros [H|(l' & H & Hl')]; [exists l|exists l']; split; auto.
      * apply list_elem_of_here.
      * by apply list_elem_of_further.
    + intros (l' & H & Hl'). apply elem_of_cons in Hl' as [->|Hl']; [by left|].
      right. by exists l'.
Qed.

Lemma contribution_nil avail ext :
  ext_modId ext = None \/
  findAvailable avail (ext_modId ext) = None \/
  (exists cur, findAvailable avail (ext_modId ext) = Some cur /\
               av_version cur = ext_version ext) ->
  contribution avail ext = [].
Proof.
  unfold contribution, updateStep. intros [H|[H|(cur & H & Hv)]].
  - by rewrite H.
  - rewrite H. by destruct (ext_modId ext).
  - rewrite H. destruct (ext_modId ext); [|done].
    apply String.eqb_eq in Hv. by rewrite Hv.
Qed.

(** C1, as worded, fails: with two available records for one mod id the
    second one differs from the installed version, yet [find] stops at the
    first, which does not, and nothing is collected. *)
Lemma updateable_not_any_match :
  ~ (forall s r, r ∈ updateable s <-> anyMatchDiffers s r).
Proof.
  intros H.
  pose (r := {| av_name := "ext"; av_modId := Some 7%Z; av_version := "1.1.0" |}).
  assert (Hin : r ∈ updateable twoRecords).
  { apply H. split.
    - apply list_elem_of_lookup. by exists 1.
    - eexists _, 7%Z. split; [apply list_elem_of_here|]. by repeat split. }
  vm_compute in Hin. by apply elem_of_nil in Hin.
Qed.

(** When no two available records share a mod id, the first record with a
    mod id is the only one, and the description holds as worded. *)
Lemma updateable_any_match_unique (s : SessionExtensions) :
  (forall i j r r' m, available s !! i = Some r -> available s !! j = Some r' ->
     av_modId r = Some m -> av_modId r' = Some m -> i = j) ->
  forall r, r ∈ updateable s <-> anyMatchDiffers s r.
Proof.
  intros Huniq r.
  assert (Hfirst : forall m, firstWithModId (available s) m r <->
                             r ∈ available s /\ av_modId r = Some m).
  { intros m. split.
    - intros (i & Hi & Hm & _). split; [|done].
      apply list_elem_of_lookup. by exists i.
    - intros [Hin Hm]. apply list_elem_of_lookup in Hin as [i Hi].
      exists i. repeat split; auto. intros j r' Hj Hr' Hm'.
      specialize (Huniq i j r r' m Hi Hr' Hm Hm'). lia. }
  rewrite updateable_concat, elem_of_concat. unfold anyMatchDiffers. split.
  - intros (l & Hr & Hl). apply list_elem_of_fmap in Hl as (ext & -> & Hext).
    apply contribution_elem in Hr as (m & Hm & Hf & Hv).
    apply Hfirst in Hf as [Hin Hrm]. split; [done|]. by exists ext, m.
  - intros (Hin & ext & m & Hext & Hm & Hrm & Hv).
    exists (contribution (available s) ext). split.
    + apply contribution_elem. exists m. split; [done|]. split; [|done].
      by apply Hfirst.
    + apply list_elem_of_fmap. by exists ext.
Qed.

(** C1 (amended): the updateable list holds exactly the records that are the
    first available record carrying the mod id of some installed extension
    whose mod id is defined, and whose version differs from that extension's
    version; an installed extension without mod id, without a matching
    available record, or at the version of that first record adds nothing. *)
Theorem updateable_exactly (s : SessionExtensions) :
  (forall r, r ∈ updateable s <->
     exists ext m, ext ∈ Object_values (installed s) /\
       ext_modId ext = Some m /\ firstWithModId (available s) m r /\
       av_version r <> ext_version ext) /\
  (forall prev ext,
     ext_modId ext = None \/
     (forall r, r ∈ available s -> av_modId r <> ext_modId ext) \/
     (exists cur m, ext_modId ext = Some m /\ firstWithModId (available s) m cur /\
                    av_version cur = ext_version ext) ->
     updateStep (available s) prev ext = prev).
Proof.
  split.
  - intros r. rewrite updateable_concat, elem_of_concat. split.
    + intros (l & Hr & Hl). apply list_elem_of_fmap in Hl as (ext & -> & Hext).
      apply contribution_elem in Hr as (m & Hm & Hf & Hv). by exists ext, m.
    + intros (ext & m & Hext & Hm & Hf & Hv).
      exists (contribution (available s) ext). split.
      * apply contribution_elem. by exists m.
      * apply list_elem_of_fmap. by exists ext.
  - intros prev ext H. rewrite updateStep_app, contribution_nil.
    + by rewrite app_nil_r.
    + destruct H as [H|[H|(cur & m & Hm & Hf & Hv)]]; [by left|..].
      * right; left. destruct (findAvailable (available s) (ext_modId ext))
          as [cur|] eqn:Hfind; [|done].
        unfold findAvailable in Hfind. apply find_some in Hfind as [Hin Hb].
        apply bool_decide_eq_true in Hb. apply list_elem_of_In in Hin.
        by destruct (H cur Hin).
      * right; right. exists cur. split; [|done].
        rewrite Hm. by apply findAvailable_first.
Qed.

Lemma updateable_exactly_witness :
  {| av_name := "ext"; av_modId := Some 7%Z; av_version := "1.1.0" |}
    ∈ updateable oneOutdated.
Proof.
  apply (proj1 (updateable_exactly oneOutdated)).
  exists {| ext_name := "ext"; ext_modId := Some 7%Z; ext_version := "1.0.0" |}, 7%Z.
  split; [apply list_elem_of_here|]. split; [reflexivity|]. split.
  - exists 0. split; [reflexivity|]. split; [reflexivity|]. intros j r' Hj. lia.
  - simpl. discriminate.
Defined.

Section Chains.

Variable install : IAvailableExtension -> Installing.
Variable reducer : SessionExtensions -> Action -> SessionExtensions.

Lemma emit_installs_world started w :
  let w' := fold_left (fun w0 ext => emit (DownloadAndInstall ext) w0) started w in
  trace w' = trace w ++ map DownloadAndInstall started /\
  store w' = store w /\ reloadNecessary w' = reloadNecessary w.
Proof.
  revert w. induction started as [|e l IH]; intros w; simpl.
  - by rewrite app_nil_r.
  - destruct (IH (emit (DownloadAndInstall e) w)) as (-> & -> & ->).
    simpl. by rewrite <- app_assoc.
Qed.

(** The mapper is called on a prefix of the list: on all of it unless some
    promise is rejected at return, and then up to the first such. *)
Lemma mapperCalls_spec l :
  let sc := mapperCalls install l in
  (exists rest, l = fst sc ++ rest) /\
  (snd sc = None <->
   forall ext, ext ∈ l -> forall err, install ext <> RejectedAtReturn err) /\
  (snd sc = None -> fst sc = l) /\
  (forall err, snd sc = Some err ->
     exists pre ext, fst sc = pre ++ [ext] /\ install ext = RejectedAtReturn err).
Proof.
  induction l as [|e l IH]; simpl.
  - split; [by exists []|]. split.
    + split; [|done]. intros _ ext H. by apply elem_of_nil in H.
    + split; [done|]. discriminate.
  - cbv zeta in IH. destruct IH as ([rest Hrest] & Hnone & Hall & Hsome).
    destruct (install e) as [|err|t err] eqn:He.
    + destruct (mapperCalls install l) as [started atReturn]. simpl in *.
      split; [exists rest; by rewrite <- Hrest|]. split.
      * rewrite Hnone. split.
        -- intros H ext Hin. apply elem_of_cons in Hin as [->|Hin]; [|by apply H].
           rewrite He. discriminate.
        -- intros H ext Hin. apply H. by apply list_elem_of_further.
      * split; [intros H; by rewrite Hall|].
        intros err Herr. destruct (Hsome err Herr) as (pre & ext & -> & Hext).
        by exists (e :: pre), ext.
    + simpl. split; [by exists l|]. split.
      * split; [discriminate|]. intros H.
        destruct (H e (list_elem_of_here _ _) err He).
      * split; [discriminate|]. intros err' [= <-]. by exists [], e.
    + destruct (mapperCalls install l) as [started atReturn]. simpl in *.
      split; [exists rest; by rewrite <- Hrest|]. split.
      * rewrite Hnone. split.
        -- intros H ext Hin. apply elem_of_cons in Hin as [->|Hin]; [|by apply H].
           rewrite He. discriminate.
        -- intros H ext Hin. apply H. by apply list_elem_of_further.
      * split; [intros H; by rewrite Hall|].
        intros err' Herr. destruct (Hsome err' Herr) as (pre & ext & -> & Hext).
        by exists (e :: pre), ext.
Qed.

Lemma firstLateRejection_none l :
  firstLateRejection install l = None <->
  forall ext, ext ∈ l -> forall t err, install ext <> RejectsLater t err.
Proof.
  induction l as [|e l IH]; simpl.
  - split; [|done]. intros _ ext H. by apply elem_of_nil in H.
  - destruct (install e) as [|err|t err] eqn:He.
    + rewrite IH. split.
      * intros H ext Hin. apply elem_of_cons in Hin as [->|Hin]; [|by apply H].
        rewrite He. discriminate.
      * intros H ext Hin. apply H. by apply list_elem_of_further.
    + rewrite IH. split.
      * intros H ext Hin. apply elem_of_cons in Hin as [->|Hin]; [|by apply H].
        rewrite He. discriminate.
      * intros H ext Hin. apply H. by apply list_elem_of_further.
    + split.
      * intros H. destruct (firstLateRejection install l) as [[t' err']|];
          [destruct (Nat.leb t t')|]; discriminate.
      * intros H. destruct (H e (list_elem_of_here _ _) t err He).
Qed.

(** The mapper calls leave the store slice and the reload flag alone and
    add one event per call, in order. *)
Lemma Promise_map_world l w :
  let w' := snd (Promise_map install l w) in
  trace w' = trace w ++ map DownloadAndInstall (fst (mapperCalls install l)) /\
  store w' = store w /\ reloadNecessary w' = reloadNecessary w.
Proof.
  unfold Promise_map. destruct (mapperCalls install l) as [started atReturn].
  pose proof (emit_installs_world started w) as H. cbv zeta in H.
  destruct atReturn as [err|]; [exact H|].
  by destruct (firstLateRejection install started) as [[t err]|].
Qed.

Lemma Promise_map_resolved l w :
  fst (Promise_map install l w) = Resolved <->
  Forall (fun e => install e = Fulfils) l.
Proof.
  unfold Promise_map.
  pose proof (mapperCalls_spec l) as H. cbv zeta in H.
  destruct H as (_ & Hnone & Hall & _).
  destruct (mapperCalls install l) as [started atReturn]. simpl in *.
  rewrite Forall_forall. destruct atReturn as [err|]; simpl.
  - split; [discriminate|]. intros H.
    assert (Hx : Some err = None); [|discriminate].
    apply Hnone. intros ext Hin err' He.
    rewrite (H ext Hin) in He. discriminate.
  - rewrite (Hall eq_refl).
    pose proof (firstLateRejection_none l) as Hlate.
    destruct (firstLateRejection install l) as [[t err]|]; simpl.
    + split; [discriminate|]. intros H.
      assert (Hx : Some (t, err) = None); [|discriminate].
      apply Hlate. intros ext Hin t' err' He.
      rewrite (H ext Hin) in He. discriminate.
    + split; [|done]. intros _ ext Hin.
      destruct (install ext) as [|err|t err] eqn:He; [done|..].
      * destruct (proj1 Hnone eq_refl ext Hin err He).
      * destruct (proj1 Hlate eq_refl ext Hin t err He).
Qed.

Lemma length_zero_nil {A} (l : list A) : Nat.eqb (length l) 0 = true <-> l = [].
Proof. destruct l; simpl; split; congruence. Qed.


(** C8: when the fetch rejects, the error notification is shown and the
    returned promise rejects with the [TypeError] of [null.getTime()];
    nothing is dispatched and the store is left as it was. *)
Theorem updateAvailableExtensions_fetch_rejected (err : JsError) (w : World) :
  let r := updateAvailableExtensions install reducer (inl err) w in
  fst r = Rejected TypeError /\
  trace (snd r)
  = trace w ++ [ShowErrorNotification "Failed to fetch available extensions" err] /\
  store (snd r) = store w /\
  reloadNecessary (snd r) = reloadNecessary w /\
  (forall a, Dispatch a ∈ trace (snd r) -> Dispatch a ∈ trace w).
Proof.
  simpl. repeat split; auto.
  intros a Ha. apply elem_of_app in Ha as [Ha|Ha]; [done|].
  apply list_elem_of_singleton in Ha. discriminate.
Qed.

(** [checkForUpdates] only adds to the trace. *)
Lemma checkForUpdates_extends (w : World) :
  exists rest, trace (snd (checkForUpdates install w)) = trace w ++ rest.
Proof.
  unfold checkForUpdates.
  destruct (Nat.eqb (length (updateable (store w))) 0).
  - exists []. simpl. by rewrite app_nil_r.
  - set (w2 := emit (Log _ _ _) (emit (SendNotification _) w)).
    pose proof (Promise_map_world (updateable (store w)) w2) as H.
    cbv zeta in H. destruct H as (Ht & _).
    destruct (Promise_map install _ w2) as [[|err] w3]; simpl in *;
      rewrite Ht; subst w2; simpl; rewrite <- !app_assoc; eauto.
Qed.

(** For contrast: a fetch that resolves is followed by both dispatches. *)
Lemma updateAvailableExtensions_fetched (t : Z) exts (w : World) :
  exists rest,
    trace (snd (updateAvailableExtensions install reducer
                  (inr {| f_time := Some t; f_extensions := exts |}) w))
    = trace w ++ Dispatch (setExtensionsUpdate t)
              :: Dispatch (setAvailableExtensions exts) :: rest.
Proof.
  unfold updateAvailableExtensions. simpl.
  destruct (checkForUpdates_extends
              (dispatch reducer (setAvailableExtensions exts)
                 (dispatch reducer (setExtensionsUpdate t) w))) as [rest ->].
  exists rest. simpl. by rewrite <- !app_assoc.
Qed.

End Chains.



End ExtensionManagerFacts.

(** * Properties of the notification and dialog actions *)

Module NotificationsFacts.
Import Notifications.

Section Facts.

Variables Func Heap Any Content : Type.
Variable notificationFunc : Func -> Heap -> Run Heap.
Variable dialogFunc : Func -> option Any -> Heap -> Outcome Heap.
Variable shortidAt : nat -> string.

Local Abbreviation P := (Proc Func Heap Any Content).
Local Abbreviation Sys := (System Func Heap Any Content).

(** The part of [addNotification] before the dispatch: which id is used and
    what happens to a timer already running for it. *)
Lemma addNotification_id pt (n : INotification Func) (p : P) :
  added_id (addNotification shortidAt pt n p)
  = default (shortidAt (shortids p)) (noti_id n).
Proof.
  unfold addNotification.
  destruct (noti_id n) as [i|]; simpl.
  - destruct (timers p !! i); destruct (noti_displayMS n); reflexivity.
  - destruct (noti_displayMS n); reflexivity.
Qed.

Lemma addNotification_registry pt (n : INotification Func) (p : P) :
  let a := addNotification shortidAt pt n p in
  notificationActions (added_proc a)
  = <[added_id a := callbacksOf n]> (delete (added_id a) (notificationActions p)).
Proof.
  unfold addNotification, callbacksOf.
  destruct (noti_id n) as [i|] eqn:Hid; simpl.
  - destruct (timers p !! i); destruct (noti_displayMS n); simpl;
      rewrite ?Hid; try reflexivity;
      by rewrite insert_delete_eq.
  - destruct (noti_displayMS n); simpl; by rewrite insert_delete_eq.
Qed.


Lemma addNotification_dispatched pt (n : INotification Func) (p : P) :
  let a := addNotification shortidAt pt n p in
  dispatched (added_proc a)
  = dispatched p ++ [startNotification (storeNotiOf pt (added_id a) n)].
Proof.
  unfold addNotification.
  destruct (noti_id n) as [i|] eqn:Hid; simpl.
  - destruct (timers p !! i); destruct (noti_displayMS n); reflexivity.
  - destruct (noti_displayMS n); reflexivity.
Qed.

(** The timeouts after [addNotification]: the one registered for the id is
    cleared, and one is started when [displayMS] is given. *)
Lemma addNotification_timeouts pt (n : INotification Func) (p : P) :
  let a := addNotification shortidAt pt n p in
  let cleared :=
    match noti_id n with
    | Some i =>
      match timers p !! i with
      | Some t => delete t (timeouts p)
      | None => timeouts p
      end
    | None => timeouts p
    end in
  timeouts (added_proc a)
  = match noti_displayMS n with
    | Some ms => <[nextTimer p := (added_id a, ms)]> cleared
    | None => cleared
    end /\
  added_timer a = (fun _ => nextTimer p) <$> noti_displayMS n /\
  nextTimer (added_proc a)
  = match noti_displayMS n with Some _ => S (nextTimer p) | None => nextTimer p end.
Proof.
  unfold addNotification.
  destruct (noti_id n) as [i|] eqn:Hid; simpl.
  - destruct (timers p !! i); destruct (noti_displayMS n); simpl; auto.
  - destruct (noti_displayMS n); simpl; auto.
Qed.

Lemma addNotification_timers pt (n : INotification Func) (p : P) :
  let a := addNotification shortidAt pt n p in
  timers (added_proc a)
  = match noti_displayMS n with
    | Some _ => <[added_id a := nextTimer p]> (delete (added_id a) (timers p))
    | None => delete (added_id a) (timers p)
    end
  \/ (noti_id n = None /\
      timers (added_proc a)
      = match noti_displayMS n with
        | Some _ => <[added_id a := nextTimer p]> (timers p)
        | None => timers p
        end).
Proof.
  unfold addNotification.
  destruct (noti_id n) as [i|] eqn:Hid; simpl.
  - left. destruct (timers p !! i) eqn:Ht; destruct (noti_displayMS n); simpl;
      rewrite ?insert_delete_eq; try reflexivity;
      symmetry; by apply delete_id.
  - right. split; [done|]. by destruct (noti_displayMS n).
Qed.

(** A timeout that is not live does nothing when its time comes. *)
Lemma timerFires_cleared t (p : P) :
  timeouts p !! t = None -> timerFires t p = p.
Proof. unfold timerFires. by intros ->. Qed.

(** A live timeout dismisses the id it was started for. *)
Lemma timerFires_live t id ms (p : P) :
  timeouts p !! t = Some (id, ms) ->
  let q := timerFires t p in
  timers q = delete id (timers p) /\
  notificationActions q = delete id (notificationActions p) /\
  timeouts q = delete t (timeouts p) /\
  dispatched q = dispatched p ++ [stopNotification id].
Proof. unfold timerFires. intros ->. simpl. auto. Qed.

(** What [addNotification] dispatches is the notification with its
    actions cut down to their titles and with the process type, and
    nothing else is dispatched; without an id in the input the next
    generated id is used; the caller's object is as before; and when the
    id has a timer in the timer registry, that timeout is cleared, so that
    its time coming changes nothing, and the id's callbacks are the new
    ones. *)
Theorem addNotification_store pt (n : INotification Func) (p : P) :
  let a := addNotification shortidAt pt n p in
  dispatched (added_proc a)
  = dispatched p
    ++ [startNotification
          {| sn_id := added_id a; sn_type := noti_type n;
             sn_message := noti_message n; sn_displayMS := noti_displayMS n;
             sn_process := pt;
             sn_actions :=
               map (fun x => {| sa_title := act_title x |})
                   (default [] (noti_actions n)) |}] /\
  (noti_id n = None ->
   added_id a = shortidAt (shortids p) /\
   shortids (added_proc a) = S (shortids p)) /\
  added_caller a = n /\
  (forall i t, noti_id n = Some i -> timers p !! i = Some t ->
     t < nextTimer p ->
     timeouts (added_proc a) !! t = None /\
     timerFires t (added_proc a) = added_proc a /\
     notificationActions (added_proc a) !! i = Some (callbacksOf n)).
Proof.
  intros a. split; [|split; [|split]].
  - subst a. rewrite addNotification_dispatched. unfold storeNotiOf.
    repeat f_equal. unfold JSON_roundtrip_actions.
    destruct (noti_actions n) as [l|]; simpl; [|done].
    rewrite map_map. reflexivity.
  - intros Hid. subst a. unfold addNotification. rewrite Hid. simpl.
    by destruct (noti_displayMS n).
  - subst a. unfold addNotification.
    destruct (noti_id n) as [i|]; simpl.
    + by destruct (timers p !! i); destruct (noti_displayMS n).
    + by destruct (noti_displayMS n).
  - intros i t Hid Ht Hlt.
    assert (Hgone : timeouts (added_proc a) !! t = None).
    { subst a. pose proof (addNotification_timeouts pt n p) as H.
      cbv zeta in H. destruct H as (-> & _ & _). rewrite Hid, Ht.
      destruct (noti_displayMS n).
      - rewrite lookup_insert_ne by lia. apply lookup_delete_eq.
      - apply lookup_delete_eq. }
    split; [done|]. split; [by apply timerFires_cleared|].
    subst a. rewrite addNotification_registry, addNotification_id, Hid.
    simpl. by rewrite lookup_insert_eq.
Qed.

(** The timer half of [addNotification]: with [displayMS] a timeout is
    started and registered under the id, and when it elapses the id is
    dismissed; without it no timeout is started. *)
Lemma addNotification_schedules pt (n : INotification Func) (p : P) ms :
  noti_displayMS n = Some ms ->
  let a := addNotification shortidAt pt n p in
  let t := nextTimer p in
  added_timer a = Some t /\
  timers (added_proc a) !! added_id a = Some t /\
  timeouts (added_proc a) !! t = Some (added_id a, ms) /\
  let q := timerFires t (added_proc a) in
  timers q !! added_id a = None /\
  notificationActions q !! added_id a = None /\
  timeouts q !! t = None /\
  dispatched q = dispatched (added_proc a) ++ [stopNotification (added_id a)].
Proof.
  intros Hms a t.
  pose proof (addNotification_timeouts pt n p) as H. cbv zeta in H.
  destruct H as (Hto & Hat & _).
  fold a in Hto, Hat. rewrite Hms in Hto, Hat. simpl in Hat.
  assert (Hlive : timeouts (added_proc a) !! t = Some (added_id a, ms)).
  { rewrite Hto. apply lookup_insert_eq. }
  split; [done|]. split.
  { destruct (addNotification_timers pt n p) as [H|[_ H]];
      fold a in H; rewrite Hms in H; rewrite H; apply lookup_insert_eq. }
  split; [done|].
  cbv zeta. pose proof (timerFires_live _ _ _ _ Hlive) as H'. cbv zeta in H'.
  destruct H' as (-> & -> & -> & ->). by rewrite !lookup_delete_eq.
Qed.

Lemma addNotification_no_timer pt (n : INotification Func) (p : P) :
  noti_displayMS n = None ->
  let a := addNotification shortidAt pt n p in
  added_timer a = None /\
  nextTimer (added_proc a) = nextTimer p /\
  timeouts (added_proc a) ⊆ timeouts p.
Proof.
  intros Hms a. pose proof (addNotification_timeouts pt n p) as H.
  cbv zeta in H. destruct H as (Hto & Hat & Hnt).
  fold a in Hto, Hat, Hnt. rewrite Hms in Hto, Hat, Hnt.
  split; [done|]. split; [done|]. rewrite Hto.
  destruct (noti_id n) as [i|]; [|done].
  destruct (timers p !! i); [apply delete_subseteq|done].
Qed.

(** *** [fireNotificationAction] *)

(** While a callback runs with the caller's [dismiss], the only calls
    recorded are those of [dismiss]. *)
Lemma runWithDismiss_trace dismiss (r : Run Heap) (p : P) :
  Forall (fun e => e = DismissCall) (snd (runWithDismiss dismiss r p)).
Proof.
  revert p. induction r as [o|h k IH]; intros p; simpl.
  - constructor.
  - specialize (IH (mapOutcome (@heap _ _ _ _) (dismiss (set_heap h p)))
                   (stateOf (dismiss (set_heap h p)))).
    destruct (runWithDismiss dismiss _ _) as [o' t]. simpl in *.
    by constructor.
Qed.

(** In the listener [event.returnValue] ends up true exactly when the
    continuation has run. *)
Lemma runWithReturnValue_trace (r : Run Heap) (p : P) (rv0 : bool) :
  let res := runWithReturnValue r p rv0 in
  Forall (fun e => e = ReturnValueTrue) (snd res) /\
  (snd (fst res) = true <-> rv0 = true \/ ReturnValueTrue ∈ snd res).
Proof.
  revert p rv0. induction r as [o|h k IH]; intros p rv0; simpl.
  - split; [constructor|]. split; [by left|].
    intros [H|H]; [done|]. by apply elem_of_nil in H.
  - specialize (IH (Normal h) (set_heap h p) true).
    destruct (runWithReturnValue _ _ _) as [[o' rv] t]. simpl in *.
    destruct IH as [Hall Hrv]. split; [by constructor|].
    split.
    + intros _. right. apply list_elem_of_here.
    + intros _. apply Hrv. by left.
Qed.

Lemma ipcMainListener_trace notiId action (p : P) :
  let res := ipcMainListener notificationFunc notiId action p in
  (snd (fst res) = true <-> ReturnValueTrue ∈ snd res) /\
  Forall (fun e => e = ReturnValueTrue \/ exists f, e = Invoke browser f) (snd res).
Proof.
  unfold ipcMainListener.
  assert (Hnone : forall o : Outcome P,
    (false = true <-> ReturnValueTrue ∈ @nil (Event Func)) /\
    Forall (fun e => e = ReturnValueTrue \/ exists f, e = Invoke browser f)
           (@nil (Event Func))).
  { intros _. split; [|constructor]. split; [discriminate|].
    intros H. by apply elem_of_nil in H. }
  destruct (notificationActions p !! notiId) as [funcs|]; simpl;
    [|destruct (inheritedName notiId); by apply (Hnone (Normal p))].
  destruct (jsIndex funcs action) as [[func|]|]; simpl;
    try by apply (Hnone (Normal p)).
  pose proof (runWithReturnValue_trace (notificationFunc func (heap p)) p false)
    as H. cbv zeta in H.
  destruct (runWithReturnValue _ _ _) as [[o rv] t]. simpl in *.
  destruct H as [Hall Hrv]. split.
  - rewrite Hrv. split.
    + intros [H|H]; [discriminate|]. by apply list_elem_of_further.
    + intros H. right. apply elem_of_cons in H as [H|H]; [discriminate|done].
  - constructor; [right; by exists func|].
    eapply Forall_impl; [exact Hall|]. intros e ->. by left.
Qed.

(** C3 (amended): for an id that has an entry in the callback registry of
    the running process, [fireNotificationAction] called for that process
    invokes the callback stored at the index, once, with the caller's
    [dismiss] as its argument, and invokes nothing else; when the entry
    has no callback at the index it invokes nothing, changes nothing and
    returns. *)
Theorem fire_same_process pt notiId action dismiss (s : Sys) funcs :
  notificationActions (getProc pt s) !! notiId = Some funcs ->
  let p := getProc pt s in
  let r := fireNotificationAction notificationFunc pt notiId pt action dismiss s in
  (forall f, jsIndex funcs action = Some (Some f) ->
     let run := runWithDismiss dismiss (notificationFunc f (heap p)) p in
     fst r = mapOutcome (fun p' => setProc pt p' s) (fst run) /\
     snd r = Invoke pt f :: snd run /\
     Forall (fun e => e = DismissCall) (snd run)) /\
  ((forall f, jsIndex funcs action <> Some (Some f)) -> r = (Normal s, [])).
Proof.
  intros Hreg p r. subst r p. unfold fireNotificationAction.
  destruct (decide (pt = pt)) as [_|Hne]; [|done].
  unfold fireSameProcess. rewrite Hreg. split.
  - intros f ->. cbv zeta.
    pose proof (runWithDismiss_trace dismiss
                  (notificationFunc f (heap (getProc pt s))) (getProc pt s)) as Ht.
    destruct (runWithDismiss dismiss _ _) as [o t]. by simpl in *.
  - intros Hnone. destruct (jsIndex funcs action) as [[f|]|]; [|done..].
    by destruct (Hnone f).
Qed.

(** In the listener the run of a callback ends where [runOutcome] says,
    the reply is true exactly when the continuation was called, and each of
    its calls is in the trace. *)
Lemma runWithReturnValue_spec (r : Run Heap) (p : P) (rv0 : bool) :
  runWithReturnValue r p rv0
  = (mapOutcome (fun h => set_heap h p) (runOutcome r),
     rv0 || Nat.ltb 0 (continuationCalls r),
     replicate (continuationCalls r) ReturnValueTrue).
Proof.
  revert p rv0. induction r as [o|h k IH]; intros p rv0; simpl.
  - by rewrite orb_false_r.
  - rewrite IH. rewrite orb_true_r. simpl.
    by destruct (runOutcome (k (Normal h))).
Qed.

Lemma replicate_other {A} (x y : A) n : x <> y -> y ∉ replicate n x.
Proof.
  intros Hne Hin. apply elem_of_replicate in Hin as [Heq _]. congruence.
Qed.


(** *** Dialogs *)

Lemma resolve_frame n v (p : P) :
  let q := resolve n v p in
  heap q = heap p /\ dispatched q = dispatched p /\
  dialogCallbacks q = dialogCallbacks p /\
  length (promises q) = length (promises p) /\
  (forall m, m <> n -> promises q !! m = promises p !! m).
Proof.
  unfold resolve. destruct (promises p !! n) as [[r|]|]; simpl; auto.
  repeat split; auto.
  - apply length_insert.
  - intros m Hm. by apply list_lookup_insert_ne.
Qed.

Lemma resolve_pending n v (p : P) :
  promises p !! n = Some None -> promises (resolve n v p) !! n = Some (Some v).
Proof.
  intros H. unfold resolve. rewrite H. simpl.
  apply list_lookup_insert_eq. by apply lookup_lt_Some in H.
Qed.

(** The stored callback touches the heap and its own promise only. *)
Lemma dialogCallback_frame c key input (p : P) :
  let q := stateOf (dialogCallback dialogFunc c key input p) in
  dispatched q = dispatched p /\
  dialogCallbacks q = dialogCallbacks p /\
  length (promises q) = length (promises p) /\
  (forall m, m <> dc_promise c -> promises q !! m = promises p !! m).
Proof.
  unfold dialogCallback.
  destruct (find _ (dc_actions c)) as [action|]; simpl; auto.
  destruct (da_action action) as [f|]; simpl.
  - destruct (dialogFunc f input (heap p)) as [h'|e h']; simpl; auto.
    pose proof (resolve_frame (dc_promise c)
      {| res_action := key; res_input := input |} (set_heap h' p)) as H.
    cbv zeta in H. simpl in H. destruct H as (_ & ? & ? & ? & ?). auto.
  - pose proof (resolve_frame (dc_promise c)
      {| res_action := key; res_input := input |} p) as H.
    cbv zeta in H. destruct H as (_ & ? & ? & ? & ?). auto.
Qed.

(** It resolves its promise exactly when the key names an action whose
    callback returns; otherwise it throws and the promise stays pending. *)
Lemma dialogCallback_resolves c key input (p : P) :
  promises p !! dc_promise c = Some None ->
  let o := dialogCallback dialogFunc c key input p in
  (actionReturns dialogFunc (dc_actions c) key input (heap p) ->
   (exists q, o = Normal q) /\
   promises (stateOf o) !! dc_promise c
   = Some (Some {| res_action := key; res_input := input |})) /\
  (~ actionReturns dialogFunc (dc_actions c) key input (heap p) ->
   (exists e q, o = Throws e q) /\
   promises (stateOf o) !! dc_promise c = Some None).
Proof.
  intros Hpend. unfold dialogCallback, actionReturns.
  destruct (find _ (dc_actions c)) as [action|] eqn:Hfind; simpl.
  - destruct (da_action action) as [f|] eqn:Hact; simpl.
    + destruct (dialogFunc f input (heap p)) as [h'|e h'] eqn:Hrun; simpl.
      * split.
        { intros _. split; [eauto|]. by apply resolve_pending. }
        intros Hn. destruct Hn. exists action. rewrite Hact. eauto.
      * split.
        { intros (a & [= <-] & Ha). rewrite Hact in Ha.
          destruct Ha as [h'' Ha]. congruence. }
        intros _. split; [eauto|done].
    + split.
      { intros _. split; [eauto|]. by apply resolve_pending. }
      intros Hn. destruct Hn. exists action. by rewrite Hact.
  - split.
    { intros (a & Ha & _). discriminate. }
    intros _. split; [eauto|done].
Qed.

(** C9: [closeDialog] dispatches the dismissal, returns without raising
    whatever the stored callback does, and leaves no entry for the id; it
    calls a stored callback at most once, and an error of the callback is
    logged; a second [closeDialog] for the id calls no callback and
    returns as well. *)
Theorem closeDialog_once id key input (p : P) :
  let r := closeDialog dialogFunc id key input p in
  (exists p', fst r = Normal p' /\ dialogCallbacks p' !! id = None /\
              dispatched p' = dispatched p ++ [dismissDialog id]) /\
  dialogCalls (snd r) <= 1 /\
  (forall c e p2, dialogCallbacks p !! id = Some (SlotFn c) ->
     dialogCallback dialogFunc c key input (dispatch (dismissDialog id) p)
     = Throws e p2 ->
     snd r = [DialogCallbackCall id;
              LogError "failed to invoke dialog callback" id key]) /\
  (forall key' input',
     let r' := closeDialog dialogFunc id key' input' (stateOf (fst r)) in
     (exists p'', fst r' = Normal p'') /\ dialogCalls (snd r') = 0).
Proof.
  assert (Hclose : forall k i (q : P),
    let r := closeDialog dialogFunc id k i q in
    (exists p', fst r = Normal p' /\ dialogCallbacks p' !! id = None /\
                dispatched p' = dispatched q ++ [dismissDialog id]) /\
    dialogCalls (snd r) <= 1 /\
    (dialogCallbacks q !! id = None -> dialogCalls (snd r) = 0) /\
    (forall c e p2, dialogCallbacks q !! id = Some (SlotFn c) ->
       dialogCallback dialogFunc c k i (dispatch (dismissDialog id) q)
       = Throws e p2 ->
       snd r = [DialogCallbackCall id;
                LogError "failed to invoke dialog callback" id k])).
  { intros k i q. unfold closeDialog.
    change (dialogCallbacks (dispatch (dismissDialog id) q))
      with (dialogCallbacks q).
    destruct (dialogCallbacks q !! id) as [[|c]|] eqn:Hslot.
    - split.
      { eexists. split; [reflexivity|]. simpl.
        split; [apply lookup_delete_eq|reflexivity]. }
      split; [unfold dialogCalls; simpl; lia|]. split; [done|]. intros c e p2 [=].
    - pose proof (dialogCallback_frame c k i (dispatch (dismissDialog id) q))
        as H. cbv zeta in H. destruct H as (Hd & Hc & _).
      destruct (dialogCallback dialogFunc c k i _) as [q2|e q2] eqn:Hcb;
        simpl in *.
      + split.
        { eexists. split; [reflexivity|]. simpl.
          split; [apply lookup_delete_eq|exact Hd]. }
        split; [unfold dialogCalls; simpl; lia|]. split; [done|].
        intros c' e' p2' [= <-] Hcb'. congruence.
      + split.
        { eexists. split; [reflexivity|]. simpl.
          split; [apply lookup_delete_eq|exact Hd]. }
        split; [unfold dialogCalls; simpl; lia|]. split; [done|]. reflexivity.
    - split.
      { eexists. split; [reflexivity|]. simpl.
        split; [apply lookup_delete_eq|reflexivity]. }
      split; [unfold dialogCalls; simpl; lia|]. split; [reflexivity|].
      intros c e p2 [=]. }
  intros r. destruct (Hclose key input p) as ((p' & Hr & Hgone & Hdisp) & Hcalls & _ & Hthrow).
  fold r in Hr, Hcalls, Hthrow. split; [eauto|]. split; [done|]. split; [done|].
  intros key' input'. cbv zeta. fold r. rewrite Hr. cbn [stateOf].
  pose proof (Hclose key' input' p') as H'. cbv zeta in H'.
  destruct H' as ((p'' & Hr' & _) & _ & Hzero & _).
  split; [eauto|]. by apply Hzero.
Qed.

(** Closing a dialog whose entry is a closure with a pending promise. *)
Lemma closeDialog_entry id c key input (p : P) :
  dialogCallbacks p !! id = Some (SlotFn c) ->
  promises p !! dc_promise c = Some None ->
  let q := stateOf (fst (closeDialog dialogFunc id key input p)) in
  (actionReturns dialogFunc (dc_actions c) key input (heap p) ->
   promises q !! dc_promise c
   = Some (Some {| res_action := key; res_input := input |})) /\
  (~ actionReturns dialogFunc (dc_actions c) key input (heap p) ->
   promises q !! dc_promise c = Some None).
Proof.
  intros Hslot Hpend. unfold closeDialog.
  change (dialogCallbacks (dispatch (dismissDialog id) p))
    with (dialogCallbacks p).
  rewrite Hslot.
  pose proof (dialogCallback_resolves c key input
                (dispatch (dismissDialog id) p) Hpend) as H.
  cbv zeta in H. change (heap (dispatch (dismissDialog id) p)) with (heap p) in H.
  destruct H as [Hyes Hno].
  destruct (dialogCallback dialogFunc c key input _) as [q2|e q2]; simpl in *;
    split; intros Ha.
  - by apply Hyes.
  - by apply Hno.
  - by apply Hyes.
  - by apply Hno.
Qed.

(** Closing another dialog leaves an entry and the promises of the
    closures it does not run as they are. *)
Lemma closeDialog_other id' key input (p : P) id n :
  id' <> id ->
  (forall c, dialogCallbacks p !! id' = Some (SlotFn c) -> dc_promise c <> n) ->
  let q := stateOf (fst (closeDialog dialogFunc id' key input p)) in
  dialogCallbacks q !! id = dialogCallbacks p !! id /\
  promises q !! n = promises p !! n.
Proof.
  intros Hne Hn. unfold closeDialog.
  change (dialogCallbacks (dispatch (dismissDialog id') p))
    with (dialogCallbacks p).
  destruct (dialogCallbacks p !! id') as [[|c]|] eqn:Hslot; simpl.
  - by rewrite lookup_delete_ne.
  - pose proof (dialogCallback_frame c key input (dispatch (dismissDialog id') p))
      as H. cbv zeta in H. destruct H as (_ & Hc & _ & Hp).
    specialize (Hp n ltac:(intros ->; by apply (Hn c))).
    destruct (dialogCallback dialogFunc c key input _) as [q2|e q2]; simpl in *;
      rewrite lookup_delete_ne, Hc, Hp; done.
  - by rewrite lookup_delete_ne.
Qed.


(** [showDialog] and [closeDialog] keep the stored closures well formed. *)
Lemma showDialog_wf type title content (actions : list (IDialogAction Func))
    (p : P) :
  dialogs_wf p ->
  dialogs_wf (shown_proc (showDialog shortidAt type title content actions p)).
Proof.
  intros Hwf id c. unfold showDialog. simpl. rewrite length_app. simpl.
  destruct (decide (shortidAt (shortids p) = id)) as [->|Hne].
  - rewrite lookup_insert_eq. intros [= <-]. simpl. lia.
  - rewrite lookup_insert_ne by done. intros Hc. apply Hwf in Hc. lia.
Qed.

Lemma closeDialog_wf id key input (p : P) :
  dialogs_wf p ->
  dialogs_wf (stateOf (fst (closeDialog dialogFunc id key input p))).
Proof.
  intros Hwf id' c. unfold closeDialog.
  change (dialogCallbacks (dispatch (dismissDialog id) p))
    with (dialogCallbacks p).
  assert (Hdel : forall (q : P),
    dialogCallbacks q = dialogCallbacks p ->
    length (promises q) = length (promises p) ->
    delete id (dialogCallbacks q) !! id' = Some (SlotFn c) ->
    dc_promise c < length (promises q)).
  { intros q Hc Hl Hlook. rewrite Hc in Hlook. rewrite Hl.
    apply (Hwf id'). eapply lookup_delete_Some; eauto. }
  destruct (dialogCallbacks p !! id) as [[|c0]|] eqn:Hslot; simpl.
  - by apply Hdel.
  - pose proof (dialogCallback_frame c0 key input (dispatch (dismissDialog id) p))
      as H. cbv zeta in H. destruct H as (_ & Hc & Hl & _).
    destruct (dialogCallback dialogFunc c0 key input _) as [q2|e q2]; simpl in *;
      by apply Hdel.
  - by apply Hdel.
Qed.

(** C6: a notification without [displayMS] is dismissed by a timer all the
    same when an earlier notification of the same id had one and was
    dismissed by hand: [dismissNotification] forgets the timer without
    clearing it, the untimed notification starts none, and the old timeout
    then stops the new notification and drops its callbacks. *)
Theorem stale_timer_dismisses pt (h : Heap) (f : Func) :
  let a1 := addNotification shortidAt pt (timedNotification Func)
              (initial Func Any Content h) in
  let p1 := dismissNotification "x" (added_proc a1) in
  let a2 := addNotification shortidAt pt (untimedNotification f) p1 in
  let p3 := timerFires 0 (added_proc a2) in
  added_timer a1 = Some 0 /\
  added_timer a2 = None /\
  notificationActions (added_proc a2) !! "x" = Some [Some f] /\
  timeouts (added_proc a2) !! 0 = Some ("x", 1000%Z) /\
  notificationActions p3 !! "x" = None /\
  dispatched p3 = dispatched (added_proc a2) ++ [stopNotification "x"].
Proof.
  cbv zeta. repeat split; vm_compute; reflexivity.
Qed.

End Facts.

(** C3, as worded, fails: for an id without an entry in the registry the
    lookup of the index throws, although no callback is registered. *)
Lemma fire_unregistered_throws :
  ~ @firesSafely nat nat string string sampleNotificationFunc.
Proof.
  intros H.
  specialize (H renderer "gone" 0%Z Normal
                {| browserProc := sampleProc; rendererProc := sampleProc |}).
  assert (Hfire : fireNotificationAction sampleNotificationFunc renderer "gone"
                    renderer 0 Normal
                    {| browserProc := sampleProc; rendererProc := sampleProc |}
                  = (Throws TypeError
                       {| browserProc := sampleProc; rendererProc := sampleProc |}, []))
    by (vm_compute; reflexivity).
  rewrite Hfire in H. discriminate H.
  intros funcs f Hlook. vm_compute in Hlook. discriminate.
Qed.



Lemma addNotification_store_witness :
  timeouts (added_proc
              (addNotification sampleShortid browser (untimedNotification 0)
                 (browserProc (sampleSystem (timedNotification nat))))) !! 0
  = None.
Proof.
  apply (addNotification_store nat nat string string sampleShortid browser (untimedNotification 0)
           (browserProc (sampleSystem (timedNotification nat)))) with (i := "x").
  - reflexivity.
  - vm_compute. reflexivity.
  - vm_compute. lia.
Defined.

Lemma fire_same_process_witness :
  snd (fireNotificationAction sampleNotificationFunc browser "x" browser 0 Normal
         (sampleSystem (untimedNotification 1)))
  = [Invoke browser 1; DismissCall].
Proof.
  assert (Hreg : notificationActions
                   (getProc browser (sampleSystem (untimedNotification 1))) !! "x"
                 = Some [Some 1]) by (vm_compute; reflexivity).
  destruct (fire_same_process nat nat string string sampleNotificationFunc browser "x" 0%Z Normal
              (sampleSystem (untimedNotification 1)) [Some 1] Hreg) as [H _].
  destruct (H 1 eq_refl) as (_ & -> & _). vm_compute. reflexivity.
Defined.


Lemma closeDialog_once_witness :
  snd (closeDialog sampleDialogFunc (shown_id sampleDialog) "Retry" None
         (shown_proc sampleDialog))
  = [DialogCallbackCall "rJ1"; LogError "failed to invoke dialog callback" "rJ1" "Retry"].
Proof.
  destruct (closeDialog_once nat nat string string sampleDialogFunc (shown_id sampleDialog) "Retry" None
              (shown_proc sampleDialog)) as (_ & _ & H & _).
  eapply H.
  - vm_compute. reflexivity.
  - vm_compute. reflexivity.
Defined.


End NotificationsFacts.

(** * More on the extension manager: missing dependencies *)

Module DependencyFacts.
Import ExtensionManager.

Lemma propertyOf_pushDependent depId extId d (m : list (string * list string)) :
  propertyOf d (pushDependent depId extId m)
  = if String.eqb depId d
    then Some (default [] (propertyOf depId m) ++ [extId])
    else propertyOf d m.
Proof.
  unfold propertyOf. induction m as [|[k v] m IH]; simpl.
  - rewrite String.eqb_sym. by destruct (String.eqb d depId).
  - destruct (String.eqb k depId) eqn:Hk; simpl.
    + apply String.eqb_eq in Hk as ->.
      by destruct (String.eqb depId d) eqn:Hd; simpl; rewrite ?String.eqb_refl.
    + destruct (String.eqb k d) eqn:Hkd; simpl.
      * apply String.eqb_eq in Hkd as ->.
        rewrite String.eqb_sym in Hk. by rewrite Hk.
      * exact IH.
Qed.

Lemma keys_pushDependent depId extId (m : list (string * list string)) :
  map fst (pushDependent depId extId m)
  = if bool_decide (depId ∈ map fst m) then map fst m
    else map fst m ++ [depId].
Proof.
  induction m as [|[k v] m IH]; simpl; [done|].
  destruct (String.eqb k depId) eqn:Hk; simpl.
  - apply String.eqb_eq in Hk as ->.
    rewrite bool_decide_eq_true_2; [done|apply list_elem_of_here].
  - apply String.eqb_neq in Hk. rewrite IH.
    destruct (bool_decide (depId ∈ map fst m)) eqn:Hin.
    + apply bool_decide_eq_true in Hin.
      rewrite bool_decide_eq_true_2; [done|by apply list_elem_of_further].
    + apply bool_decide_eq_false in Hin.
      rewrite bool_decide_eq_false_2; [done|].
      intros H. apply elem_of_cons in H as [H|H]; congruence.
Qed.

Lemma propertyOf_keys {A} d (m : list (string * A)) :
  d ∈ map fst m <-> is_Some (propertyOf d m).
Proof.
  unfold propertyOf. induction m as [|[k v] m IH]; simpl.
  - split; [intros H; by apply elem_of_nil in H|intros [x H]; discriminate].
  - destruct (String.eqb k d) eqn:Hk; simpl.
    + apply String.eqb_eq in Hk as ->. split; [eauto|intros _; apply list_elem_of_here].
    + apply String.eqb_neq in Hk. rewrite <- IH. split.
      * intros H. apply elem_of_cons in H as [H|H]; congruence.
      * by apply list_elem_of_further.
Qed.

(** The reduction, one failure at a time. *)
Lemma missingDependencies_seq loadFailures acc :
  fold_left
    (fun prev entry =>
       fold_left (recordDependency (fst entry))
                 (List.filter isDependency (snd entry)) prev)
    loadFailures acc
  = fold_left (fun prev p => recordDependency (fst p) prev (snd p))
              (dependencySeq loadFailures) acc.
Proof.
  unfold dependencySeq. revert acc.
  induction loadFailures as [|[extId fails] lf IH]; intros acc; simpl; [done|].
  rewrite fold_left_app, IH. f_equal.
  generalize (List.filter isDependency fails). clear. intros l. revert acc.
  induction l as [|f l IH]; intros acc; simpl; [done|]. apply IH.
Qed.

Lemma record_after_error seq e :
  fold_left (fun prev p => recordDependency (fst p) prev (snd p)) seq (inl e)
  = inl e.
Proof. induction seq as [|p seq IH]; simpl; auto. Qed.

(** What the reduction gives from an object [m] on: an error exactly when a
    failure lacks [args] or names an inherited property, else [m] with every
    failure's extension appended to the list of its property. *)
Lemma record_seq (seq : list (string * IExtensionLoadFailure))
    (m : list (string * list string)) :
  match fold_left (fun prev p => recordDependency (fst p) prev (snd p)) seq (inr m) with
  | inl e =>
    e = TypeError /\
    exists p, p ∈ seq /\
      (fail_args (snd p) = None \/
       exists d, fail_args (snd p) = Some d /\
                 inheritedName (default "undefined" d) = true)
  | inr m' =>
    (forall p, p ∈ seq ->
       exists d, fail_args (snd p) = Some d /\
                 inheritedName (default "undefined" d) = false) /\
    (NoDup (map fst m) -> NoDup (map fst m')) /\
    ((forall d l, propertyOf d m = Some l -> l <> []) ->
     forall d l, propertyOf d m' = Some l -> l <> []) /\
    forall d, default [] (propertyOf d m')
              = default [] (propertyOf d m)
                ++ map fst (List.filter (filedUnder d) seq)
  end.
Proof.
  revert m. induction seq as [|[extId fail] seq IH]; intros m; simpl.
  - split; [intros p H; by apply elem_of_nil in H|].
    split; [done|]. split; [done|]. intros d. by rewrite app_nil_r.
  - destruct (fail_args fail) as [depId|] eqn:Hargs.
    + destruct (inheritedName (default "undefined" depId)) eqn:Hinh.
      { rewrite record_after_error. split; [done|].
        exists (extId, fail). split; [apply list_elem_of_here|].
        right. simpl. eauto. }
      specialize (IH (pushDependent (default "undefined" depId) extId m)).
      destruct (fold_left _ seq _) as [e|m'].
      * destruct IH as [-> (p & Hp & Hbad)]. split; [done|].
        exists p. split; [by apply list_elem_of_further|done].
      * destruct IH as (Hargs' & Hnodup & Hne & Hprop).
        split; [|split; [|split]].
        -- intros p Hp. apply elem_of_cons in Hp as [->|Hp]; [|by apply Hargs'].
           simpl. eauto.
        -- intros Hnd. apply Hnodup. rewrite keys_pushDependent.
           destruct (bool_decide _) eqn:Hin; [done|].
           apply bool_decide_eq_false in Hin.
           apply NoDup_app. split; [done|]. split.
           ++ intros x Hx Hx'. apply list_elem_of_singleton in Hx'. congruence.
           ++ apply NoDup_singleton.
        -- intros Hm. apply Hne. intros d l.
           rewrite propertyOf_pushDependent.
           destruct (String.eqb _ d).
           ++ intros [= <-]. by destruct (default [] _).
           ++ apply Hm.
        -- intros d. rewrite Hprop, propertyOf_pushDependent.
           unfold filedUnder at 2. simpl. rewrite Hargs.
           destruct (String.eqb (default "undefined" depId) d) eqn:Hd; simpl.
           ++ apply String.eqb_eq in Hd as ->. by rewrite <- app_assoc.
           ++ done.
    + rewrite record_after_error. split; [done|].
      exists (extId, fail). split; [apply list_elem_of_here|by left].
Qed.

Lemma dependentsOf_seq depId loadFailures :
  dependentsOf depId loadFailures
  = map fst (List.filter (filedUnder depId) (dependencySeq loadFailures)).
Proof.
  unfold dependentsOf, dependencySeq.
  induction loadFailures as [|[extId fails] lf IH]; simpl; [done|].
  rewrite List.filter_app, map_app, <- IH. f_equal.
  clear. induction fails as [|f fails IH]; simpl; [done|].
  destruct (isDependency f); simpl; [|exact IH].
  unfold filedUnder at 1. simpl.
  destruct (fail_args f) as [d|]; simpl; [|exact IH].
  destruct (String.eqb _ depId); simpl; [by rewrite IH|exact IH].
Qed.

Lemma dependencySeq_elem p loadFailures :
  p ∈ dependencySeq loadFailures <->
  exists entry, entry ∈ loadFailures /\ fst p = fst entry /\
                snd p ∈ snd entry /\ isDependency (snd p) = true.
Proof.
  unfold dependencySeq.
  induction loadFailures as [|[extId fails] lf IH]; simpl.
  - split; [intros H; by apply elem_of_nil in H|].
    intros (entry & H & _). by apply elem_of_nil in H.
  - rewrite elem_of_app, IH, list_elem_of_fmap. split.
    + intros [(f & -> & Hf)|(entry & Hin & Hrest)].
      * apply list_elem_of_In, filter_In in Hf as [Hf Hdep].
        exists (extId, fails). split; [apply list_elem_of_here|].
        repeat split; auto. by apply list_elem_of_In.
      * exists entry. split; [by apply list_elem_of_further|done].
    + intros (entry & Hin & Hfst & Hsnd & Hdep).
      apply elem_of_cons in Hin as [->|Hin].
      * left. exists (snd p). split.
        { destruct p; simpl in *. by subst. }
        apply list_elem_of_In, filter_In. split; [by apply list_elem_of_In|done].
      * right. by exists entry.
Qed.

(** The object built by [checkMissingDependencies] has one property per
    missing dependency, and the property holds the extensions that reported
    it, in table order. *)
Theorem missingDependencies_table loadFailures m :
  missingDependencies loadFailures = inr m ->
  NoDup (map fst m) /\
  (forall d, d ∈ map fst m <-> dependentsOf d loadFailures <> []) /\
  (forall d, default [] (propertyOf d m) = dependentsOf d loadFailures).
Proof.
  unfold missingDependencies. rewrite missingDependencies_seq.
  pose proof (record_seq (dependencySeq loadFailures) []) as H.
  intros Hm. rewrite Hm in H. destruct H as (_ & Hnd & Hne & Hprop).
  assert (Hd : forall d, default [] (propertyOf d m) = dependentsOf d loadFailures).
  { intros d. by rewrite Hprop, dependentsOf_seq. }
  split; [apply Hnd; constructor|]. split; [|done].
  intros d. rewrite propertyOf_keys, <- Hd. split.
  - intros [l Hl]. rewrite Hl. simpl. eapply Hne; [|exact Hl]. discriminate.
  - destruct (propertyOf d m); [eauto|done].
Qed.

Lemma missingDependencies_table_witness :
  default [] (propertyOf "lib" [("lib", ["mod-a"; "mod-c"]); ("ui", ["mod-c"])])
  = dependentsOf "lib" sampleFailures.
Proof.
  exact (proj2 (proj2 (missingDependencies_table sampleFailures
                         [("lib", ["mod-a"; "mod-c"]); ("ui", ["mod-c"])]
                         eq_refl)) "lib").
Defined.

(** The reduction throws, with a [TypeError], exactly when a 'dependency'
    failure comes without [args] or names as its dependency a property that
    the plain object inherits; failures of other kinds are never looked
    into. *)
Theorem missingDependencies_error loadFailures :
  (lacksArgs loadFailures \/ namesInherited loadFailures ->
   missingDependencies loadFailures = inl TypeError) /\
  (~ lacksArgs loadFailures -> ~ namesInherited loadFailures ->
   exists m, missingDependencies loadFailures = inr m).
Proof.
  unfold missingDependencies. rewrite missingDependencies_seq.
  pose proof (record_seq (dependencySeq loadFailures) []) as H.
  destruct (fold_left _ (dependencySeq loadFailures) _) as [e|m].
  - destruct H as [-> (p & Hp & Hbad)]. split; [done|].
    intros Hn1 Hn2.
    apply dependencySeq_elem in Hp as (entry & Hin & _ & Hsnd & Hdep).
    destruct Hbad as [Hnone|(d & Hd & Hinh)].
    + destruct Hn1. by exists entry, (snd p).
    + destruct Hn2. by exists entry, (snd p), d.
  - destruct H as (Hargs & _). split; [|eauto].
    intros [(entry & fail & Hin & Hfail & Hdep & Hnone)
           |(entry & fail & d & Hin & Hfail & Hdep & Hd & Hinh)].
    + destruct (Hargs (fst entry, fail)) as (d & Hd & _).
      { apply dependencySeq_elem. by exists entry. }
      simpl in Hd. congruence.
    + destruct (Hargs (fst entry, fail)) as (d' & Hd' & Hinh').
      { apply dependencySeq_elem. by exists entry. }
      simpl in Hd'. congruence.
Qed.

Lemma missingDependencies_error_witness :
  missingDependencies
    [("mod-a", [ {| fail_id := "dependency"; fail_args := Some (Some "toString") |} ])]
  = inl TypeError.
Proof.
  apply (proj1 (missingDependencies_error _)). right.
  eexists _, _, _. split; [apply list_elem_of_here|].
  split; [apply list_elem_of_here|]. repeat split; reflexivity.
Defined.

Lemma dependents_of_failure loadFailures :
  ~ lacksArgs loadFailures ->
  hasDependencyFailure loadFailures <->
  exists d, dependentsOf d loadFailures <> [].
Proof.
  intros Hargs. split.
  - intros (entry & fail & Hin & Hfail & Hdep).
    destruct (fail_args fail) as [d|] eqn:Hd.
    + exists (default "undefined" d). rewrite dependentsOf_seq.
      assert (Hp : (fst entry, fail) ∈ List.filter
                     (filedUnder (default "undefined" d))
                     (dependencySeq loadFailures)).
      { apply list_elem_of_In, filter_In. split.
        - apply list_elem_of_In, dependencySeq_elem. by exists entry.
        - unfold filedUnder. simpl. rewrite Hd. apply String.eqb_refl. }
      intros Hnil. apply (f_equal length) in Hnil. rewrite length_map in Hnil.
      destruct (List.filter _ _); [by apply elem_of_nil in Hp|discriminate].
    + destruct Hargs. by exists entry, fail.
  - intros [d Hd]. rewrite dependentsOf_seq in Hd.
    destruct (List.filter (filedUnder d) (dependencySeq loadFailures))
      as [|p l] eqn:Hf; [done|].
    assert (Hp : p ∈ dependencySeq loadFailures).
    { apply list_elem_of_In. eapply (proj1 (filter_In _ _ _)).
      rewrite Hf. by left. }
    apply dependencySeq_elem in Hp as (entry & Hin & _ & Hsnd & Hdep).
    by exists entry, (snd p).
Qed.

(** When every 'dependency' failure has its [args] and none names an
    inherited property, [checkMissingDependencies] sends the warning with
    the 'Fix' action exactly when there is such a failure, and the action
    covers exactly the missing dependencies. *)
Theorem checkMissingDependencies_warns loadFailures :
  ~ lacksArgs loadFailures ->
  ~ namesInherited loadFailures ->
  (hasDependencyFailure loadFailures ->
   exists w, checkMissingDependencies loadFailures = inr (Some w) /\
     dw_type w = "warning" /\ dw_action_title w = "Fix" /\
     forall d, d ∈ dw_fix w <-> dependentsOf d loadFailures <> []) /\
  (~ hasDependencyFailure loadFailures ->
   checkMissingDependencies loadFailures = inr None).
Proof.
  intros Hargs Hinh. unfold checkMissingDependencies.
  destruct (proj2 (missingDependencies_error loadFailures) Hargs Hinh) as [m Hm].
  rewrite Hm.
  destruct (missingDependencies_table loadFailures m Hm) as (Hnd & Hkeys & _).
  pose proof (dependents_of_failure loadFailures Hargs) as Hhas.
  destruct (map fst m) as [|k ks] eqn:Hk; simpl.
  - split; [|done]. intros Hf. apply Hhas in Hf as [d Hd].
    apply Hkeys in Hd. by apply elem_of_nil in Hd.
  - split.
    + intros _. eexists. split; [reflexivity|]. simpl.
      split; [done|]. split; [done|]. intros d.
      rewrite <- Hkeys. rewrite elem_of_union, elem_of_singleton.
      rewrite elem_of_list_to_set, elem_of_cons. done.
    + intros Hn. destruct Hn. apply Hhas. exists k. apply Hkeys.
      apply list_elem_of_here.
Qed.

Lemma sampleFailures_have_args : ~ lacksArgs sampleFailures.
Proof.
  intros (entry & fail & Hin & Hfail & Hdep & Hnone).
  unfold sampleFailures in Hin.
  repeat (apply elem_of_cons in Hin as [->|Hin]);
    try (by apply elem_of_nil in Hin); simpl in Hfail;
    repeat (apply elem_of_cons in Hfail as [->|Hfail]);
    try (by apply elem_of_nil in Hfail); discriminate.
Defined.

Lemma sampleFailures_own_names : ~ namesInherited sampleFailures.
Proof.
  intros (entry & fail & d & Hin & Hfail & Hdep & Hd & Hinh).
  unfold sampleFailures in Hin.
  repeat (apply elem_of_cons in Hin as [->|Hin]);
    try (by apply elem_of_nil in Hin); simpl in Hfail;
    repeat (apply elem_of_cons in Hfail as [->|Hfail]);
    try (by apply elem_of_nil in Hfail); simpl in Hd;
    try discriminate; injection Hd as <-; vm_compute in Hinh; discriminate.
Defined.

Lemma checkMissingDependencies_warns_witness :
  exists w, checkMissingDependencies sampleFailures = inr (Some w) /\
            "lib" ∈ dw_fix w.
Proof.
  destruct (proj1 (checkMissingDependencies_warns sampleFailures
                     sampleFailures_have_args sampleFailures_own_names))
    as (w & Hw & _ & _ & Hfix).
  - eexists _, _. split; [apply list_elem_of_here|].
    split; [apply list_elem_of_here|reflexivity].
  - exists w. split; [exact Hw|]. apply Hfix. vm_compute. discriminate.
Defined.

Section Sessions.

Variable install : IAvailableExtension -> option JsError.
Variable read : list Call -> JsError + list (string * IExtension).
Variable isEqual : list (string * IExtension) -> list (string * IExtension) -> bool.
Variable reducer : SessionExtensions -> Action -> SessionExtensions.

Lemma extends_refl s : extends s s.
Proof. split; [exists []; by rewrite app_nil_r|done]. Qed.

Lemma extends_trans s1 s2 s3 : extends s1 s2 -> extends s2 s3 -> extends s1 s3.
Proof.
  intros [[m1 H1] F1] [[m2 H2] F2]. split; [|auto].
  exists (m1 ++ m2). by rewrite H2, H1, app_assoc.
Qed.

Lemma extends_call c s : extends s (call c s).
Proof. split; [by exists [c]|done]. Qed.

Lemma genUpdateInstalledExtensions_extends initial s :
  extends s (snd (genUpdateInstalledExtensions read isEqual reducer initial s)).
Proof.
  unfold genUpdateInstalledExtensions.
  destruct (read (ses_calls s)) as [err|ext]; simpl; [apply extends_call|].
  destruct (negb initial && negb (isEqual (installed (ses_store s)) ext)); simpl.
  - split; [|done]. eexists. simpl. by rewrite <- app_assoc.
  - split; [by eexists|done].
Qed.

(** The function made by [genUpdateInstalledExtensions] never rejects and
    never takes the reload flag back; called with [initial] it leaves the
    flag alone; when the directory cannot be read the store and the flag
    stay and the error is reported once; when what is read equals what is
    installed the flag stays and the list is dispatched all the same. *)
Theorem genUpdateInstalledExtensions_safe initial s :
  let r := genUpdateInstalledExtensions read isEqual reducer initial s in
  fst r = Resolved /\
  extends s (snd r) /\
  (initial = true -> ses_reload (snd r) = ses_reload s) /\
  (forall err, read (ses_calls s) = inl err ->
     ses_store (snd r) = ses_store s /\ ses_reload (snd r) = ses_reload s /\
     ses_calls (snd r)
     = ses_calls s
       ++ [CallShowError "Failed to read extension directory" (ErrValue err)
             {| eo_message := None; eo_allowReport := Some false |}]) /\
  (forall ext, read (ses_calls s) = inr ext ->
     isEqual (installed (ses_store s)) ext = true ->
     ses_reload (snd r) = ses_reload s /\
     ses_calls (snd r) = ses_calls s ++ [CallDispatch (setInstalledExtensions ext)]).
Proof.
  intros r. split.
  { subst r. unfold genUpdateInstalledExtensions.
    by destruct (read (ses_calls s)). }
  split; [apply genUpdateInstalledExtensions_extends|].
  subst r. unfold genUpdateInstalledExtensions. split; [|split].
  - intros ->. by destruct (read (ses_calls s)).
  - intros err ->. done.
  - intros ext -> ->. by rewrite andb_false_r.
Qed.

(** The 'Fix' step for one dependency never rejects.  A dependency with no
    available extension of that name is reported as not found and nothing
    is installed; a failed install is reported with its error; after a
    successful install the installed extensions are read again and no
    install error is reported. *)
Theorem fixDependency_reports depId s :
  let r := fixDependency install read isEqual reducer depId s in
  let found := find (fun iter => String.eqb (av_name iter) depId)
                    (available (ses_store s)) in
  fst r = Resolved /\
  extends s (snd r) /\
  (found = None ->
   snd r = call (CallShowError "Failed to install extension" (ErrText "Not found")
                   {| eo_message := Some depId; eo_allowReport := Some false |}) s) /\
  (forall ext err, found = Some ext -> install ext = Some err ->
     snd r = call (CallShowError "Failed to install extension" (ErrValue err)
                     {| eo_message := Some depId; eo_allowReport := None |})
                  (call (CallInstall ext) s)) /\
  (forall ext, found = Some ext -> install ext = None ->
     av_name ext = depId /\
     snd r = snd (genUpdateInstalledExtensions read isEqual reducer false
                    (call (CallInstall ext) s))).
Proof.
  intros r found. subst r found. unfold fixDependency, installDependency.
  destruct (find _ (available (ses_store s))) as [ext|] eqn:Hfind.
  - destruct (install ext) as [err|] eqn:Hinst; simpl.
    + split; [done|]. split.
      { eapply extends_trans; apply extends_call. }
      split; [done|]. split.
      * intros ext' err' [= <-]. rewrite Hinst. by intros [= <-].
      * intros ext' [= <-]. by rewrite Hinst.
    + pose proof (genUpdateInstalledExtensions_extends false
                    (call (CallInstall ext) s)) as Hext.
      assert (Hres : fst (genUpdateInstalledExtensions read isEqual reducer false
                            (call (CallInstall ext) s)) = Resolved).
      { unfold genUpdateInstalledExtensions. by destruct (read _). }
      destruct (genUpdateInstalledExtensions read isEqual reducer false _)
        as [st s2] eqn:Hgen. simpl in Hext, Hres. subst st. simpl.
      split; [done|]. split.
      { eapply extends_trans; [apply extends_call|exact Hext]. }
      split; [done|]. split.
      * intros ext' err' [= <-]. by rewrite Hinst.
      * intros ext' [= <-] _. split; [|by rewrite Hgen].
        apply find_some in Hfind as [_ Hname]. by apply String.eqb_eq in Hname.
  - simpl. split; [done|]. split; [apply extends_call|]. by repeat split.
Qed.

End Sessions.

Lemma genUpdateInstalledExtensions_safe_witness :
  ses_reload (snd (genUpdateInstalledExtensions
                     (fun _ => inr [("ext", {| ext_name := "ext"; ext_modId := Some 7%Z;
                                               ext_version := "1.1.0" |})])
                     (fun _ _ => false) (fun st _ => st) true sampleSession))
  = false.
Proof.
  apply (genUpdateInstalledExtensions_safe
           (fun _ => inr [("ext", {| ext_name := "ext"; ext_modId := Some 7%Z;
                                     ext_version := "1.1.0" |})])
           (fun _ _ => false) (fun st _ => st) true sampleSession).
  reflexivity.
Defined.

Lemma fixDependency_reports_witness :
  ses_calls (snd (fixDependency (fun _ => None) (fun _ => inl (UserError "gone"))
                    (fun _ _ => true) (fun st _ => st) "missing" sampleSession))
  = [CallShowError "Failed to install extension" (ErrText "Not found")
       {| eo_message := Some "missing"; eo_allowReport := Some false |}].
Proof.
  destruct (fixDependency_reports (fun _ => None) (fun _ => inl (UserError "gone"))
              (fun _ _ => true) (fun st _ => st) "missing" sampleSession)
    as (_ & _ & H & _).
  rewrite H; reflexivity.
Defined.

End DependencyFacts.

(** * More on the update check *)

Module UpdateFacts.
Import ExtensionManager ExtensionManagerFacts.

Lemma contribution_length avail ext : length (contribution avail ext) <= 1.
Proof.
  unfold contribution, updateStep.
  destruct (ext_modId ext); simpl; [|lia].
  destruct (findAvailable avail _); simpl; [|lia].
  destruct (String.eqb _ _); simpl; lia.
Qed.

Lemma concat_contributions_length avail exts :
  length (concat (map (contribution avail) exts)) <= length exts.
Proof.
  induction exts as [|e exts IH]; simpl; [lia|].
  rewrite length_app. pose proof (contribution_length avail e). lia.
Qed.

(** Whatever is collected for update is a record of the available list with
    a mod id, there is at most one per installed extension, and with no
    available extensions nothing is collected. *)
Theorem updateable_sound (s : SessionExtensions) :
  (forall r, r ∈ updateable s ->
     r ∈ available s /\ exists m, av_modId r = Some m) /\
  length (updateable s) <= length (installed s) /\
  (available s = [] -> updateable s = []).
Proof.
  split; [|split].
  - intros r. rewrite updateable_concat, elem_of_concat.
    intros (l & Hr & Hl). apply list_elem_of_fmap in Hl as (ext & -> & _).
    apply contribution_elem in Hr as (m & _ & (i & Hi & Hm & _) & _).
    split; [|by exists m]. apply list_elem_of_lookup. by exists i.
  - rewrite updateable_concat.
    etransitivity; [apply concat_contributions_length|].
    unfold Object_values. by rewrite length_map.
  - intros Hnil. rewrite updateable_concat, Hnil.
    induction (Object_values (installed s)) as [|e l IH]; simpl; [done|].
    rewrite IH, app_nil_r. unfold contribution, updateStep.
    by destruct (ext_modId e).
Qed.

Lemma updateable_sound_witness :
  {| av_name := "ext"; av_modId := Some 7%Z; av_version := "1.1.0" |}
    ∈ available oneOutdated.
Proof.
  apply (proj1 (updateable_sound oneOutdated)).
  vm_compute. apply list_elem_of_here.
Defined.

Section Check.

Variable install : IAvailableExtension -> Installing.

(** When every installed extension that has a mod id is at the version of
    the first available record for that mod id, [checkForUpdates] resolves
    and does nothing; installed extensions without a mod id do not matter. *)
Theorem checkForUpdates_up_to_date (w : World) :
  (forall ext m cur, ext ∈ Object_values (installed (store w)) ->
     ext_modId ext = Some m ->
     findAvailable (available (store w)) (Some m) = Some cur ->
     av_version cur = ext_version ext) ->
  checkForUpdates install w = (Resolved, w).
Proof.
  intros Hsame. unfold checkForUpdates.
  assert (Hnil : updateable (store w) = []).
  { rewrite updateable_concat.
    induction (Object_values (installed (store w))) as [|e l IH]; simpl; [done|].
    rewrite IH, app_nil_r.
    - apply contribution_nil.
      destruct (ext_modId e) as [m|] eqn:Hm; [|by left].
      destruct (findAvailable (available (store w)) (Some m)) as [cur|] eqn:Hf.
      + right; right. exists cur. split; [done|].
        apply (Hsame e m cur); [apply list_elem_of_here|done..].
      + by right; left.
    - intros ext m cur Hin. apply Hsame. by apply list_elem_of_further. }
  by rewrite Hnil.
Qed.

End Check.

(** An installed extension without mod id beside one that is up to date. *)
Lemma checkForUpdates_up_to_date_witness :
  checkForUpdates (fun _ => Fulfils)
    {| store :=
         {| available :=
              [ {| av_name := "bundled"; av_modId := None; av_version := "2.0.0" |};
                {| av_name := "ext"; av_modId := Some 7%Z; av_version := "1.0.0" |} ];
            installed :=
              [ ("bundled", {| ext_name := "bundled"; ext_modId := None;
                               ext_version := "1.0.0" |});
                ("ext", {| ext_name := "ext"; ext_modId := Some 7%Z;
                           ext_version := "1.0.0" |}) ];
            updateTime := None |};
       reloadNecessary := false; trace := [] |}
  = (Resolved,
     {| store :=
          {| available :=
               [ {| av_name := "bundled"; av_modId := None; av_version := "2.0.0" |};
                 {| av_name := "ext"; av_modId := Some 7%Z; av_version := "1.0.0" |} ];
             installed :=
               [ ("bundled", {| ext_name := "bundled"; ext_modId := None;
                                ext_version := "1.0.0" |});
                 ("ext", {| ext_name := "ext"; ext_modId := Some 7%Z;
                            ext_version := "1.0.0" |}) ];
             updateTime := None |};
        reloadNecessary := false; trace := [] |}).
Proof.
  apply checkForUpdates_up_to_date. intros ext m cur Hin Hm Hf. simpl in Hin.
  apply elem_of_cons in Hin as [->|Hin]; [discriminate|].
  apply list_elem_of_singleton in Hin as ->. injection Hm as <-.
  vm_compute in Hf. by injection Hf as <-.
Defined.

End UpdateFacts.

(** * More on notifications and dialogs *)

Module NotificationsMore.
Import Notifications NotificationsFacts.

Section More.

Variables Func Heap Any Content : Type.
Variable notificationFunc : Func -> Heap -> Run Heap.
Variable dialogFunc : Func -> option Any -> Heap -> Outcome Heap.
Variable shortidAt : nat -> string.

Local Abbreviation P := (Proc Func Heap Any Content).
Local Abbreviation Sys := (System Func Heap Any Content).

(** *** Timers *)

Lemma timers_wf_initial (h : Heap) : timers_wf (initial Func Any Content h).
Proof. split; intros ? ?; simpl; by rewrite lookup_empty. Qed.

Lemma timers_wf_dismiss id (p : P) :
  timers_wf p -> timers_wf (dismissNotification id p).
Proof.
  intros [Hto Hti]. split; simpl; [exact Hto|].
  intros i t Hi. apply lookup_delete_Some in Hi as [_ Hi]. eauto.
Qed.

Lemma timers_wf_add pt (n : INotification Func) (p : P) :
  timers_wf p -> timers_wf (added_proc (addNotification shortidAt pt n p)).
Proof.
  intros [Hto Hti].
  pose proof (addNotification_timeouts _ _ _ _ shortidAt pt n p) as H. cbv zeta in H.
  destruct H as (Hto' & _ & Hnext).
  assert (Hcleared : forall t x,
    match noti_id n with
    | Some i => match timers p !! i with
                | Some t0 => delete t0 (timeouts p)
                | None => timeouts p
                end
    | None => timeouts p
    end !! t = Some x -> t < nextTimer p).
  { intros t x. destruct (noti_id n) as [i|]; [|apply Hto].
    destruct (timers p !! i); [|apply Hto].
    intros H. apply lookup_delete_Some in H as [_ H]. eauto. }
  split.
  - intros t x. rewrite Hto', Hnext. destruct (noti_displayMS n).
    + intros H. apply lookup_insert_Some in H as [[<- _]|[_ H]]; [lia|].
      apply Hcleared in H. lia.
    + apply Hcleared.
  - intros i t. rewrite Hnext.
    destruct (addNotification_timers _ _ _ _ shortidAt pt n p) as [H|[_ H]];
      rewrite H; destruct (noti_displayMS n); intros Hi.
    + apply lookup_insert_Some in Hi as [[_ <-]|[_ Hi]]; [lia|].
      apply lookup_delete_Some in Hi as [_ Hi]. apply Hti in Hi. lia.
    + apply lookup_delete_Some in Hi as [_ Hi]. eauto.
    + apply lookup_insert_Some in Hi as [[_ <-]|[_ Hi]]; [lia|].
      apply Hti in Hi. lia.
    + eauto.
Qed.

Lemma timers_wf_fires t (p : P) : timers_wf p -> timers_wf (timerFires t p).
Proof.
  intros Hwf. unfold timerFires. destruct (timeouts p !! t) as [[id ms]|]; [|done].
  apply timers_wf_dismiss. destruct Hwf as [Hto Hti]. split; simpl; [|exact Hti].
  intros t' x H. apply lookup_delete_Some in H as [_ H]. eauto.
Qed.

(** Showing and dismissing notifications and the elapsing of timeouts keep
    every timer handle in use below the next handle to be handed out. *)
Theorem timers_wf_kept pt (n : INotification Func) id t (p : P) :
  timers_wf p ->
  timers_wf (added_proc (addNotification shortidAt pt n p)) /\
  timers_wf (dismissNotification id p) /\
  timers_wf (timerFires t p).
Proof.
  intros Hwf. split; [by apply timers_wf_add|].
  split; [by apply timers_wf_dismiss|by apply timers_wf_fires].
Qed.

(** The timeout started for a notification is a new one, and it survives
    the showing of any notification given another id. *)
Theorem addNotification_timer_fresh pt (n : INotification Func) (p : P) ms :
  timers_wf p ->
  noti_displayMS n = Some ms ->
  let a := addNotification shortidAt pt n p in
  let t := nextTimer p in
  timeouts p !! t = None /\
  (forall i, timers p !! i <> Some t) /\
  forall pt' (n' : INotification Func),
    noti_id n' <> Some (added_id a) ->
    timeouts (added_proc (addNotification shortidAt pt' n' (added_proc a))) !! t
    = Some (added_id a, ms).
Proof.
  intros [Hto Hti] Hms a t. split; [|split].
  - destruct (timeouts p !! t) as [x|] eqn:H; [|done]. apply Hto in H. lia.
  - intros i H. apply Hti in H. lia.
  - intros pt' n' Hid.
    pose proof (addNotification_schedules _ _ _ _ shortidAt pt n p ms Hms) as H.
    cbv zeta in H. destruct H as (_ & Hreg & Hlive & _). fold a t in Hreg, Hlive.
    pose proof (addNotification_timeouts _ _ _ _ shortidAt pt n p) as H. cbv zeta in H.
    destruct H as (_ & _ & Hnext). fold a in Hnext. rewrite Hms in Hnext.
    pose proof (timers_wf_add pt n p (conj Hto Hti)) as [_ Hti'].
    fold a in Hti'. rewrite Hnext in Hti'.
    pose proof (addNotification_timeouts _ _ _ _ shortidAt pt' n' (added_proc a)) as H.
    cbv zeta in H. destruct H as (-> & _ & _). rewrite Hnext.
    assert (Hcleared :
      match noti_id n' with
      | Some i => match timers (added_proc a) !! i with
                  | Some t0 => delete t0 (timeouts (added_proc a))
                  | None => timeouts (added_proc a)
                  end
      | None => timeouts (added_proc a)
      end !! t = Some (added_id a, ms)).
    { destruct (noti_id n') as [i|]; [|done].
      destruct (timers (added_proc a) !! i) as [t0|] eqn:Ht0; [|done].
      rewrite lookup_delete_ne; [done|]. intros ->.
      destruct (addNotification_timers _ _ _ _ shortidAt pt n p) as [H|[_ H]];
        fold a in H; rewrite Hms in H; rewrite H in Ht0;
        rewrite lookup_insert_ne in Ht0 by congruence.
      - apply lookup_delete_Some in Ht0 as [_ Ht0]. apply Hti in Ht0.
        subst t. lia.
      - apply Hti in Ht0. subst t. lia. }
    destruct (noti_displayMS n'); [|done].
    rewrite lookup_insert_ne; [done|]. subst t. lia.
Qed.

(** Showing a notification leaves the callbacks and the timer of every
    other id, and everything about dialogs, as they were. *)
Theorem addNotification_frame pt (n : INotification Func) (p : P) :
  let a := addNotification shortidAt pt n p in
  (forall id', id' <> added_id a ->
     notificationActions (added_proc a) !! id' = notificationActions p !! id' /\
     timers (added_proc a) !! id' = timers p !! id') /\
  dialogCallbacks (added_proc a) = dialogCallbacks p /\
  promises (added_proc a) = promises p /\
  heap (added_proc a) = heap p.
Proof.
  intros a. split.
  - intros id' Hne. split.
    + subst a. rewrite addNotification_registry.
      rewrite lookup_insert_ne by done. by rewrite lookup_delete_ne.
    + destruct (addNotification_timers _ _ _ _ shortidAt pt n p) as [H|[_ H]];
        fold a in H; rewrite H; destruct (noti_displayMS n);
        rewrite ?lookup_insert_ne by done; rewrite ?lookup_delete_ne by done;
        done.
  - subst a. unfold addNotification.
    destruct (noti_id n) as [i|]; simpl.
    + by destruct (timers p !! i); destruct (noti_displayMS n).
    + by destruct (noti_displayMS n).
Qed.

(** A timed notification that is dismissed by hand keeps its timeout: the
    registry entries are gone but the timeout is live, and when it elapses
    the id is stopped a second time. *)
Theorem dismiss_keeps_timeout pt (n : INotification Func) (p : P) ms :
  noti_displayMS n = Some ms ->
  let a := addNotification shortidAt pt n p in
  let q := dismissNotification (added_id a) (added_proc a) in
  timers q !! added_id a = None /\
  notificationActions q !! added_id a = None /\
  timeouts q !! nextTimer p = Some (added_id a, ms) /\
  dispatched (timerFires (nextTimer p) q)
  = dispatched p
    ++ [startNotification (storeNotiOf pt (added_id a) n);
        stopNotification (added_id a); stopNotification (added_id a)].
Proof.
  intros Hms a q.
  pose proof (addNotification_schedules _ _ _ _ shortidAt pt n p ms Hms) as H.
  cbv zeta in H. destruct H as (_ & _ & Hlive & _). fold a in Hlive.
  assert (Hq : timeouts q !! nextTimer p = Some (added_id a, ms)) by exact Hlive.
  split; [subst q; simpl; apply lookup_delete_eq|].
  split; [subst q; simpl; apply lookup_delete_eq|]. split; [done|].
  pose proof (timerFires_live _ _ _ _ _ _ _ _ Hq) as H. cbv zeta in H.
  destruct H as (_ & _ & _ & ->). subst q. simpl.
  fold a. subst a. rewrite addNotification_dispatched.
  by rewrite <- !app_assoc.
Qed.

(** C10: re-adding an id does not cancel a timer that is still running for
    it once [dismissNotification] has dropped the timer from the registry
    without clearing it: after a timed notification is shown and dismissed
    by hand, its timeout is live, showing a notification with the same id
    again leaves that timeout live beside the new one, and when it elapses
    it stops the new notification and drops its callbacks. *)
Theorem readd_keeps_forgotten_timer pt (h : Heap) :
  let a1 := addNotification shortidAt pt (timedNotification Func)
              (initial Func Any Content h) in
  let p1 := dismissNotification "x" (added_proc a1) in
  let a2 := addNotification shortidAt pt (timedNotification Func) p1 in
  let p3 := timerFires 0 (added_proc a2) in
  added_timer a1 = Some 0 /\
  timeouts p1 !! 0 = Some ("x", 1000%Z) /\
  timers p1 !! "x" = None /\
  added_timer a2 = Some 1 /\
  timeouts (added_proc a2) !! 0 = Some ("x", 1000%Z) /\
  notificationActions (added_proc a2) !! "x" = Some [] /\
  notificationActions p3 !! "x" = None /\
  timers p3 !! "x" = None /\
  dispatched p3 = dispatched (added_proc a2) ++ [stopNotification "x"].
Proof.
  cbv zeta. repeat split; vm_compute; reflexivity.
Qed.

(** *** Firing actions *)

Lemma getProc_setProc pt (q : P) (s : Sys) : getProc pt (setProc pt q s) = q.
Proof. by destruct pt. Qed.

Lemma jsIndex_of_nat {A} (l : list A) (k : nat) : jsIndex l (Z.of_nat k) = l !! k.
Proof.
  unfold jsIndex. destruct (Z.ltb_spec (Z.of_nat k) 0); [lia|].
  by rewrite Nat2Z.id.
Qed.

Lemma jsIndex_out_of_range {A} (l : list A) (idx : Z) :
  (idx < 0 \/ Z.of_nat (length l) <= idx)%Z -> jsIndex l idx = None.
Proof.
  intros H. unfold jsIndex. destruct (Z.ltb_spec idx 0); [done|].
  apply lookup_ge_None. lia.
Qed.

Lemma addNotification_heap pt (n : INotification Func) (p : P) :
  heap (added_proc (addNotification shortidAt pt n p)) = heap p.
Proof.
  unfold addNotification. destruct (noti_id n) as [i|]; simpl.
  - by destruct (timers p !! i); destruct (noti_displayMS n).
  - by destruct (noti_displayMS n).
Qed.

Lemma addNotification_callbacks pt (n : INotification Func) (p : P) :
  let a := addNotification shortidAt pt n p in
  notificationActions (added_proc a) !! added_id a = Some (callbacksOf n).
Proof. cbv zeta. rewrite addNotification_registry. apply lookup_insert_eq. Qed.

(** Once a notification is shown, firing index [k] in its process runs the
    callback of its [k]-th action with the caller's [dismiss]; an index
    below zero or past the last action runs nothing and returns. *)
Theorem fire_added pt (n : INotification Func) (p : P) (s : Sys) dismiss :
  let a := addNotification shortidAt pt n p in
  let s' := setProc pt (added_proc a) s in
  (forall l k act f,
     noti_actions n = Some l -> l !! k = Some act -> act_action act = Some f ->
     let run := runWithDismiss dismiss (notificationFunc f (heap p)) (added_proc a) in
     fireNotificationAction notificationFunc pt (added_id a) pt (Z.of_nat k)
       dismiss s'
     = (mapOutcome (fun p' => setProc pt p' s') (fst run), Invoke pt f :: snd run)) /\
  (forall idx,
     (idx < 0 \/ Z.of_nat (length (default [] (noti_actions n))) <= idx)%Z ->
     fireNotificationAction notificationFunc pt (added_id a) pt idx dismiss s'
     = (Normal s', [])).
Proof.
  intros a s'.
  assert (Hfire : forall idx,
    fireNotificationAction notificationFunc pt (added_id a) pt idx dismiss s'
    = match jsIndex (callbacksOf n) idx with
      | Some (Some func) =>
        let '(o, t) := runWithDismiss dismiss (notificationFunc func (heap p))
                         (added_proc a) in
        (mapOutcome (fun p' => setProc pt p' s') o, Invoke pt func :: t)
      | _ => (Normal s', [])
      end).
  { intros idx. unfold fireNotificationAction.
    destruct (decide (pt = pt)); [|done]. unfold fireSameProcess.
    subst s'. rewrite getProc_setProc. subst a.
    rewrite addNotification_callbacks, addNotification_heap. done. }
  split.
  - intros l k act f Hl Hk Hf. rewrite Hfire. unfold callbacksOf. rewrite Hl.
    rewrite jsIndex_of_nat, list_lookup_fmap, Hk. simpl. rewrite Hf.
    cbv zeta. by destruct (runWithDismiss _ _ _).
  - intros idx Hidx. rewrite Hfire, jsIndex_out_of_range; [done|].
    unfold callbacksOf. destruct (noti_actions n); simpl in *; [|done].
    by rewrite length_map.
Qed.


(** *** Dialogs *)

Lemma resolve_settled n v m v' (p : P) :
  promises p !! m = Some (Some v) ->
  promises (resolve n v' p) !! m = Some (Some v).
Proof.
  intros Hm. unfold resolve.
  destruct (promises p !! n) as [[r|]|] eqn:Hn; simpl; try done.
  rewrite list_lookup_insert_ne; [done|]. intros ->. congruence.
Qed.

Lemma dialogCallback_settled c key input m v (p : P) :
  promises p !! m = Some (Some v) ->
  promises (stateOf (dialogCallback dialogFunc c key input p)) !! m
  = Some (Some v).
Proof.
  intros Hm. unfold dialogCallback.
  destruct (find _ (dc_actions c)) as [action|]; simpl; [|done].
  destruct (da_action action) as [f|]; simpl.
  - destruct (dialogFunc f input (heap p)) as [h'|e h']; simpl; [|done].
    by apply resolve_settled.
  - by apply resolve_settled.
Qed.

Lemma dialogs_wf_initial (h : Heap) : dialogs_wf (initial Func Any Content h).
Proof. intros id c. simpl. by rewrite lookup_empty. Qed.

(** Showing and closing dialogs keep every stored callback tied to a promise
    that exists. *)
Theorem dialogs_wf_kept type title content (actions : list (IDialogAction Func))
    id key input (p : P) :
  dialogs_wf p ->
  dialogs_wf (shown_proc (showDialog shortidAt type title content actions p)) /\
  dialogs_wf (stateOf (fst (closeDialog dialogFunc id key input p))).
Proof.
  intros Hwf. split; [by apply showDialog_wf|by apply closeDialog_wf].
Qed.

(** Two dialogs open at once do not interfere when [shortid] gave them
    different ids: they have different promises, closing the second leaves
    the first pending, and the first then resolves on its own close. *)
Theorem dialogs_independent typeA titleA contentA typeB titleB contentB
    (actsA actsB : list (IDialogAction Func)) (p : P) keyB inputB keyA inputA :
  shortidAt (shortids p) <> shortidAt (S (shortids p)) ->
  let A := showDialog shortidAt typeA titleA contentA actsA p in
  let B := showDialog shortidAt typeB titleB contentB actsB (shown_proc A) in
  let q := stateOf (fst (closeDialog dialogFunc (shown_id B) keyB inputB
                           (shown_proc B))) in
  shown_id A <> shown_id B /\
  shown_promise A <> shown_promise B /\
  promises q !! shown_promise A = Some None /\
  (actionReturns dialogFunc actsA keyA inputA (heap q) ->
   promises (stateOf (fst (closeDialog dialogFunc (shown_id A) keyA inputA q)))
     !! shown_promise A
   = Some (Some {| res_action := keyA; res_input := inputA |})).
Proof.
  intros Hids A B q.
  assert (HidA : shown_id A = shortidAt (shortids p)) by reflexivity.
  assert (HidB : shown_id B = shortidAt (S (shortids p))) by reflexivity.
  assert (HpA : shown_promise A = length (promises p)) by reflexivity.
  assert (HpB : shown_promise B = S (length (promises p))).
  { subst B A. unfold showDialog. simpl. rewrite length_app. simpl. lia. }
  assert (HslotA : dialogCallbacks (shown_proc B) !! shown_id A
                   = Some (SlotFn {| dc_actions := actsA;
                                     dc_promise := shown_promise A |})).
  { clear HidA HidB HpA HpB. subst B A. unfold showDialog. simpl.
    rewrite lookup_insert_ne by congruence. apply lookup_insert_eq. }
  assert (HslotB : dialogCallbacks (shown_proc B) !! shown_id B
                   = Some (SlotFn {| dc_actions := actsB;
                                     dc_promise := shown_promise B |})).
  { clear HidA HidB HpA HpB HslotA. subst B A. unfold showDialog. simpl.
    apply lookup_insert_eq. }
  assert (HpendA : promises (shown_proc B) !! shown_promise A = Some None).
  { clear HidA HidB HpA HpB HslotA HslotB. subst B A. unfold showDialog. simpl.
    rewrite <- app_assoc. by apply list_lookup_middle. }
  pose proof (closeDialog_other _ _ _ _ dialogFunc (shown_id B) keyB inputB
                (shown_proc B) (shown_id A) (shown_promise A)) as Hother.
  cbv zeta in Hother. fold q in Hother.
  destruct Hother as [Hc Hp].
  { rewrite HidA, HidB. congruence. }
  { intros c. rewrite HslotB. intros [= <-].
    change (shown_promise B <> shown_promise A).
    rewrite HpA, HpB. apply Nat.neq_succ_diag_l. }
  split; [rewrite HidA, HidB; congruence|].
  split; [rewrite HpA, HpB; apply Nat.neq_succ_diag_r|].
  split; [by rewrite Hp|].
  pose proof (closeDialog_entry _ _ _ _ dialogFunc (shown_id A)
                {| dc_actions := actsA; dc_promise := shown_promise A |}
                keyA inputA q) as Hentry.
  cbv zeta in Hentry. destruct Hentry as [Hyes _].
  { rewrite Hc. exact HslotA. }
  { change (promises q !! shown_promise A = Some None). by rewrite Hp. }
  exact Hyes.
Qed.

End More.

Lemma timers_wf_kept_witness :
  timers_wf (dismissNotification "x"
               (added_proc (addNotification sampleShortid browser
                              (timedNotification nat) sampleProc))).
Proof.
  apply (timers_wf_kept nat nat string string sampleShortid browser
           (timedNotification nat) "x" 0
           (added_proc (addNotification sampleShortid browser
                          (timedNotification nat) sampleProc))).
  apply (timers_wf_kept nat nat string string sampleShortid browser
           (timedNotification nat) "x" 0 sampleProc).
  apply timers_wf_initial.
Defined.

Lemma addNotification_timer_fresh_witness :
  timeouts (added_proc
              (addNotification sampleShortid browser
                 {| noti_id := Some "y"; noti_type := "info"; noti_message := "other";
                    noti_displayMS := Some 5%Z; noti_actions := None |}
                 (added_proc (addNotification sampleShortid browser
                                (timedNotification nat) sampleProc)))) !! 0
  = Some ("x", 1000%Z).
Proof.
  apply (addNotification_timer_fresh nat nat string string sampleShortid browser
           (timedNotification nat) sampleProc 1000%Z).
  - apply timers_wf_initial.
  - reflexivity.
  - simpl. discriminate.
Defined.

Lemma addNotification_frame_witness :
  notificationActions
    (added_proc (addNotification sampleShortid browser (untimedNotification 0)
                   sampleProc)) !! "y"
  = notificationActions sampleProc !! "y".
Proof.
  apply (addNotification_frame nat nat string string sampleShortid browser
           (untimedNotification 0) sampleProc).
  simpl. discriminate.
Defined.

Lemma dismiss_keeps_timeout_witness :
  timeouts (dismissNotification "x"
              (added_proc (addNotification sampleShortid browser
                             (timedNotification nat) sampleProc))) !! 0
  = Some ("x", 1000%Z).
Proof.
  apply (dismiss_keeps_timeout nat nat string string sampleShortid browser
           (timedNotification nat) sampleProc 1000%Z).
  reflexivity.
Defined.

Lemma fire_added_witness :
  fireNotificationAction sampleNotificationFunc browser "x" browser 5
    (fun p => Normal p) (sampleSystem (untimedNotification 1))
  = (Normal (sampleSystem (untimedNotification 1)), []).
Proof.
  apply (proj2 (fire_added nat nat string string sampleNotificationFunc
                  sampleShortid browser (untimedNotification 1) sampleProc
                  {| browserProc := sampleProc; rendererProc := sampleProc |}
                  (fun p => Normal p))).
  right. simpl. lia.
Defined.

Lemma dialogs_wf_kept_witness : dialogs_wf (shown_proc sampleDialog).
Proof.
  apply (dialogs_wf_kept nat nat string string sampleDialogFunc sampleShortid
           "question" "Proceed?" "text" sampleActions "rJ1" "Confirm" None
           sampleProc).
  apply dialogs_wf_initial.
Defined.

Lemma dialogs_independent_witness :
  shown_id sampleDialog
  <> shown_id (showDialog sampleShortid "info" "Again?" "text" sampleActions
                 (shown_proc sampleDialog)).
Proof.
  apply (dialogs_independent nat nat string string sampleDialogFunc sampleShortid
           "question" "Proceed?" "text" "info" "Again?" "text"
           sampleActions sampleActions sampleProc "Cancel" None "Confirm" None).
  simpl. discriminate.
Defined.

End NotificationsMore.
